(** * PixelBoard: photo ingestion, thumbnail derivation and album membership

    A shallow embedding of the request handlers of the PixelBoard server
    (routes/photos.js in its S3 and its local-disk variant, the album
    routes, services/s3Service.js, services/lambdaService.js, the Lambda
    image processor, the Mongoose schemas and the error middleware of
    server.js), followed by the properties of the specification that
    were checked against them.

    Conventions of the embedding.
    - A MongoDB collection is a finite map from ObjectId to document;
      an ObjectId is a number.  Reads and writes of the collections are
      total; what can make [save] reject is modelled: schema validation
      and a duplicate [_id].
    - [null] and [undefined] are both [None]: every test the handlers
      make on such a value is a truthiness test.
    - A title or a description is a JavaScript string, a sequence of
      UTF-16 code units ([Text]); keys, file names, MIME types and
      messages, which the code only concatenates, compares and splits
      at "/", are [string]s.
    - Calls that leave the process are resolved by an input of the
      handler (its [Env]): the clock, generated identifiers, the outcome
      of S3 writes and deletes, and how the Lambda invocation went.  The
      function invoked is the image processor of this repository: when
      it runs it works on the bucket of the server.  An invocation that
      fails is taken to have left the bucket as it was.
    - Image bytes are opaque to the code ([Buffer]); decoding, resizing
      and encoding are done by the sharp library, a parameter.
    - The fields [updatedAt], [lastViewed] and [metadata] of a photo,
      which no handler reads or writes, and the user metadata attached
      to S3 objects are left out. *)

From Stdlib Require Import NArith Ascii String.
From stdpp Require Import base option list strings pretty gmap fin_maps fin_sets sorting.

Open Scope string_scope.

Abbreviation ObjectId := N.

(** ** JavaScript strings *)

(** The code units of a string; [length] is its [length] property. *)
Definition Text : Type := list N.

(** White space as [String.prototype.trim] and the class [\s] of a
    regular expression have it (WhiteSpace and LineTerminator of
    ECMAScript): tab, line feed, vertical tab, form feed, carriage
    return, space, U+00A0, U+1680, U+2000 to U+200A, U+2028, U+2029,
    U+202F, U+205F, U+3000 and U+FEFF. *)
Definition is_space (c : N) : bool :=
  (N.leb 9 c && N.leb c 13) || N.eqb c 32 || N.eqb c 160 || N.eqb c 5760
  || (N.leb 8192 c && N.leb c 8202) || N.eqb c 8232 || N.eqb c 8233
  || N.eqb c 8239 || N.eqb c 8287 || N.eqb c 12288 || N.eqb c 65279.

Fixpoint trim_start (l : Text) : Text :=
  match l with
  | c :: r => if is_space c then trim_start r else l
  | [] => []
  end.

(** [s.trim()], and the [trim] sanitizer of validator.js, which removes
    the same characters from both ends. *)
Definition trim (s : Text) : Text :=
  rev (trim_start (rev (trim_start s))).

(** A text in a boolean position, and [a || b] on an optional text. *)
Definition nonempty (s : Text) : bool :=
  match s with [] => false | _ => true end.

Definition or_text (a : option Text) (b : Text) : Text :=
  match a with
  | Some s => if nonempty s then s else b
  | None => b
  end.

(** The length [isLength] of validator.js compares: [str.length] less
    the surrogate pairs and, in its later releases, less the variation
    selectors U+FE0E and U+FE0F. *)
Definition is_high_surrogate (c : N) : bool := N.leb 55296 c && N.leb c 56319.
Definition is_low_surrogate (c : N) : bool := N.leb 56320 c && N.leb c 57343.
Definition is_selector (c : N) : bool := N.eqb c 65038 || N.eqb c 65039.

(** The matches of [/[\uD800-\uDBFF][\uDC00-\uDFFF]/g], from the left. *)
Fixpoint surrogate_pairs (s : Text) : nat :=
  match s with
  | h :: t =>
      match t with
      | l :: r =>
          if is_high_surrogate h && is_low_surrogate l
          then S (surrogate_pairs r) else surrogate_pairs t
      | [] => 0
      end
  | [] => 0
  end.

Definition selectors (s : Text) : nat := length (List.filter is_selector s).

Definition isLength_length (selectors_counted : bool) (s : Text) : nat :=
  length s - (if selectors_counted then 0 else selectors s) - surrogate_pairs s.

(** [s.startsWith(p)] *)
Definition startsWith (s p : string) : bool := String.prefix p s.

(** [s.split('/')]: never empty. *)
Fixpoint split_slash (s : string) : list string :=
  match s with
  | EmptyString => [EmptyString]
  | String c r =>
      if Ascii.eqb c "/" then EmptyString :: split_slash r
      else match split_slash r with
           | h :: t => String c h :: t
           | [] => [String c EmptyString]
           end
  end.

(** [parts.join('/')] *)
Definition join_slash (parts : list string) : string := String.concat "/" parts.

(** A string in a boolean position: the empty string is falsy. *)
Definition truthy (s : string) : bool :=
  match s with EmptyString => false | _ => true end.

Definition truthy_opt (o : option string) : bool :=
  match o with Some s => truthy s | None => false end.

(** [a || b] on an optional number and on an optional string. *)
Definition or_num (a : option N) (b : N) : N :=
  match a with
  | Some n => if N.eqb n 0 then b else n
  | None => b
  end.

Definition or_str (a : option string) (b : string) : string :=
  match a with
  | Some s => if truthy s then s else b
  | None => b
  end.

(** ** Exceptions *)

Inductive Exn (A : Type) : Type :=
  | Ok (a : A)
  | Throw (message : string).
Arguments Ok {A} a.
Arguments Throw {A} message.

Definition bindE {A B} (m : Exn A) (k : A → Exn B) : Exn B :=
  match m with
  | Ok a => k a
  | Throw e => Throw e
  end.

Notation "'do' x <- m ; k" := (bindE m (λ x, k))
  (at level 10, x name, m at level 100, k at level 200).

(** ** Documents (models/Photo.js, models/Album.js) *)

Inductive ProcessingStatus := pending | processing | completed | failed.

Module Photo.
Record t := mk {
  title : Text;
  description : Text;
  filename : string;
  originalName : string;
  mimetype : string;
  size : N;
  thumbnailPath : option string;
  s3Key : string;
  s3Location : string;
  thumbnailS3Key : option string;
  processingStatus : ProcessingStatus;
  processingError : option string;
  uploadedBy : ObjectId;
  albums : list ObjectId;
  views : N;
  createdAt : N
}.

Definition set_thumbnailS3Key (k : option string) (p : t) : t :=
  mk (title p) (description p) (filename p) (originalName p) (mimetype p)
     (size p) (thumbnailPath p) (s3Key p) (s3Location p) k
     (processingStatus p) (processingError p) (uploadedBy p) (albums p)
     (views p) (createdAt p).

Definition set_albums (a : list ObjectId) (p : t) : t :=
  mk (title p) (description p) (filename p) (originalName p) (mimetype p)
     (size p) (thumbnailPath p) (s3Key p) (s3Location p) (thumbnailS3Key p)
     (processingStatus p) (processingError p) (uploadedBy p) a
     (views p) (createdAt p).

(** Validation run by [save]: [required] rejects the empty string,
    [maxlength] bounds the [length] of the string. *)
Definition validate (p : t) : bool :=
  nonempty (title p) && Nat.leb (length (title p)) 100
  && Nat.leb (length (description p)) 500
  && truthy (filename p) && truthy (originalName p) && truthy (mimetype p)
  && truthy (s3Key p) && truthy (s3Location p).
End Photo.

Module Album.
Record t := mk {
  title : Text;
  description : Text;
  createdBy : ObjectId;
  photos : list ObjectId;
  coverPhoto : option ObjectId;
  createdAt : N
}.

Definition set_membership (ps : list ObjectId) (c : option ObjectId)
    (a : t) : t :=
  mk (title a) (description a) (createdBy a) ps c (createdAt a).

Definition validate (a : t) : bool :=
  nonempty (title a) && Nat.leb (length (title a)) 100
  && Nat.leb (length (description a)) 500.
End Album.

(** ** Responses *)

Record PhotoView := {
  v_id : ObjectId;
  v_title : Text;
  v_description : Text;
  v_s3Location : string;
  v_thumbnailS3Key : option string;
  v_uploadedBy : option string;
  v_createdAt : N
}.

Record AlbumView := {
  av_id : ObjectId;
  av_title : Text;
  av_description : Text;
  av_photoCount : nat;
  av_coverPhoto : option string;
  av_createdBy : string;
  av_createdAt : N
}.

Record LocalPhotoView := {
  lv_id : ObjectId;
  lv_title : Text;
  lv_description : Text;
  lv_thumbnailPath : option string;
  lv_originalPath : string;
  lv_createdAt : N
}.

Inductive ResponseBody :=
  | Message (m : string)
  | Errors
  | PhotoBody (m : option string) (photo : PhotoView)
  | Reprocessed (m : string) (thumbnailS3Key : option string)
  | LocalPhotoBody (m : string) (photo : LocalPhotoView)
  | AlbumBody (m : string) (album : AlbumView).

Record Response := { status : N; body : ResponseBody }.

Definition client_error (r : Response) : bool :=
  N.leb 400 (status r) && N.ltb (status r) 500.

(** ** The Lambda invocation as [processImage] sees it
    (services/lambdaService.js) *)

Record ThumbnailSize := { width : N; height : N }.

Record Options := {
  generateThumbnail : option bool;
  thumbnailSize : option ThumbnailSize;
  quality : option N;
  format : option string
}.

Record Event := {
  imageKey : string;
  bucket : option string;
  options : Options
}.

(** The parsed reply: the two top-level properties that are read. *)
Record Reply := {
  errorMessage : option string;
  thumbnailKey : option string
}.

(** [lambdaClient.send] rejects (or the payload does not parse), or a
    reply arrives. *)
Inductive Invocation :=
  | Rejected (message : string)
  | Replied (result : Reply).

Definition default_size : ThumbnailSize := {| width := 300; height := 300 |}.

(** [{ ...defaults, ...options }]: a property the caller set wins. *)
Definition spread {A} (own : option A) (dflt : A) : A :=
  match own with
  | Some v => v
  | None => dflt
  end.

(** The options of the payload built by [processImage]: the defaults,
    then the spread of the caller's own options over them. *)
Definition payload_options (o : Options) : Options :=
  {| generateThumbnail :=
       Some (spread (generateThumbnail o)
               (negb (bool_decide (generateThumbnail o = Some false))));
     thumbnailSize :=
       Some (spread (thumbnailSize o) (default default_size (thumbnailSize o)));
     quality := Some (spread (quality o) (or_num (quality o) 80));
     format := Some (spread (format o) (or_str (format o) "jpeg")) |}.

Definition payload (S3_BUCKET_NAME : option string) (key : string)
    (o : Options) : Event :=
  {| imageKey := key; bucket := S3_BUCKET_NAME; options := payload_options o |}.

(** How an invocation of the image processor went: [lambdaClient.send]
    rejected; or the service answered with a function error (a timeout,
    a crash), a payload that carries [errorMessage]; or the handler ran
    to its [return], [upload_ok] being the outcome of its [s3.upload]. *)
Inductive LambdaRun :=
  | Unreachable (message : string)
  | FunctionError (message : string)
  | Completed (upload_ok : bool).

(** What [JSON.parse] of the payload gives for a completed run: the
    value the handler returned, an object with the two properties
    [statusCode] and [body], the latter a string.  It has no property
    [errorMessage] and no property [thumbnailKey]. *)
Definition returned : Reply := {| errorMessage := None; thumbnailKey := None |}.

(** [processImage]: the result carries [thumbnailKey: result.thumbnailKey];
    every failure is rethrown as "Failed to process image: ...". *)
Definition processImage (inv : Invocation) : Exn (option string) :=
  match inv with
  | Rejected m => Throw ("Failed to process image: " ++ m)
  | Replied r =>
      if truthy_opt (errorMessage r)
      then Throw ("Failed to process image: " ++ default "" (errorMessage r))
      else Ok (thumbnailKey r)
  end.

(** The options both routes pass. *)
Definition route_options : Options :=
  {| generateThumbnail := Some true; thumbnailSize := Some default_size;
     quality := Some 80%N; format := None |}.

(** ** Thumbnail keys and the sharp pipeline *)

(** [getThumbnailKey] of services/s3Service.js; the Lambda handler
    computes its [thumbnailKey] with the same three statements
    ([split], [pop], [join]). *)
Definition getThumbnailKey (originalKey : string) : string :=
  let pathParts := split_slash originalKey in
  let filename := List.last pathParts "" in
  let directory := join_slash (removelast pathParts) in
  directory ++ "/thumbnails/thumb_" ++ filename.

(** The calls chained on [sharp(input)] before [toBuffer] or [toFile]. *)
Inductive SharpOp :=
  | resize (w h : N) (fit position : string)
  | jpeg (q : N)
  | png (q : N).

Record ImageMetadata := {
  meta_width : N;
  meta_height : N;
  meta_format : string;
  meta_size : option N
}.

Record ThumbnailMetadata := {
  thumb_width : N;
  thumb_height : N;
  thumb_format : string;
  thumb_quality : N
}.

Inductive HandlerBody :=
  | Success (originalKey : string) (metadata : ImageMetadata)
      (thumbnail : option (string * ThumbnailMetadata))
  | Failure (error : string).

Record HandlerResponse := { statusCode : N; handler_body : HandlerBody }.

(** The three branches on [format] of the Lambda handler. *)
Definition thumbnail_pipeline (size : ThumbnailSize) (q : N) (fmt : string)
    : list SharpOp :=
  if String.eqb fmt "jpeg"
  then [resize (width size) (height size) "cover" "center"; jpeg q]
  else if String.eqb fmt "png"
  then [resize (width size) (height size) "cover" "center"; png q]
  else [resize (width size) (height size) "cover" "center"].

(** ** The server *)

Section Server.

(** Image bytes. *)
Context {Buffer : Type}.
(** [path.extname] *)
Variable extname : string → string.
(** [process.env.NODE_ENV === 'production'], [process.env.S3_BUCKET_NAME],
    [process.env.AWS_REGION] *)
Variable production : bool.
Variable S3_BUCKET_NAME : option string.
Variable AWS_REGION : option string.
(** sharp: [metadata()], and running a pipeline to its output. *)
Variable sharp_metadata : Buffer → Exn ImageMetadata.
Variable sharp_output : list SharpOp → Buffer → Exn Buffer.
(** The first [n] bytes of a buffer. *)
Variable truncate : N → Buffer → Buffer.
(** Whether the release of validator.js in use counts the variation
    selectors in [isLength]. *)
Variable selectors_counted : bool.

Record S3Object := { Body : Buffer; ContentType : string }.

Record Activity := {
  userId : ObjectId;
  activity : string;
  photoId : ObjectId;
  photoTitle : Text;
  fileSize_logged : option N;
  timestamp : N
}.

Record State := {
  db_photos : gmap N Photo.t;
  db_albums : gmap N Album.t;
  db_users : gmap N string;
  s3_bucket : gmap string S3Object;
  activity_log : list Activity
}.

Definition with_photos (m : gmap N Photo.t) (st : State) : State :=
  {| db_photos := m; db_albums := db_albums st; db_users := db_users st;
     s3_bucket := s3_bucket st; activity_log := activity_log st |}.

Definition with_albums (m : gmap N Album.t) (st : State) : State :=
  {| db_photos := db_photos st; db_albums := m; db_users := db_users st;
     s3_bucket := s3_bucket st; activity_log := activity_log st |}.

Definition with_bucket (b : gmap string S3Object) (st : State) : State :=
  {| db_photos := db_photos st; db_albums := db_albums st;
     db_users := db_users st; s3_bucket := b;
     activity_log := activity_log st |}.

Definition with_log (l : list Activity) (st : State) : State :=
  {| db_photos := db_photos st; db_albums := db_albums st;
     db_users := db_users st; s3_bucket := s3_bucket st;
     activity_log := l |}.

(** *** The Lambda image processor *)

Definition getObject (k : string) (b : gmap string S3Object)
    : Exn S3Object :=
  match b !! k with
  | Some o => Ok o
  | None => Throw "The specified key does not exist."
  end.

(** The body of the handler's [try]; [upload_ok] is the outcome of
    [s3.upload].  The name of the bucket is only tested for presence. *)
Definition process (upload_ok : bool) (ev : Event)
    (b : gmap string S3Object)
    : Exn (HandlerBody * gmap string S3Object) :=
  if negb (truthy (imageKey ev)) || negb (truthy_opt (bucket ev))
  then Throw "Missing required parameters: imageKey and bucket"
  else
    do originalImage <- getObject (imageKey ev) b;
    let imageBuffer := Body originalImage in
    do metadata <- sharp_metadata imageBuffer;
    if bool_decide (generateThumbnail (options ev) ≠ Some false)
    then
      let thumbnailSize := default default_size (thumbnailSize (options ev)) in
      let quality := or_num (quality (options ev)) 80 in
      let format := or_str (format (options ev)) "jpeg" in
      do thumbnailBuffer <-
        sharp_output (thumbnail_pipeline thumbnailSize quality format)
          imageBuffer;
      let thumbnailKey := getThumbnailKey (imageKey ev) in
      if negb upload_ok then Throw "S3 upload failed"
      else
        Ok (Success (imageKey ev) metadata
              (Some (thumbnailKey,
                     {| thumb_width := width thumbnailSize;
                        thumb_height := height thumbnailSize;
                        thumb_format := format;
                        thumb_quality := quality |})),
            <[thumbnailKey := {| Body := thumbnailBuffer;
                                 ContentType := "image/" ++ format |}]> b)
    else Ok (Success (imageKey ev) metadata None, b).

Definition handler (upload_ok : bool) (ev : Event)
    (b : gmap string S3Object)
    : HandlerResponse * gmap string S3Object :=
  match process upload_ok ev b with
  | Ok (res, b1) => ({| statusCode := 200; handler_body := res |}, b1)
  | Throw m => ({| statusCode := 500; handler_body := Failure m |}, b)
  end.

(** *** What a request gets from outside the process *)

(** [Date.now()], [uuidv4()], the [_id] of the document it creates,
    whether the S3 write of the upload goes through and the [size]
    multer-s3 reports for it, whether a DeleteObject of a key goes
    through, how the Lambda invocation goes, and whether the DynamoDB
    write of [logActivity] goes through. *)
Record Env := {
  now : N;
  uuid : string;
  newId : ObjectId;
  s3_put : bool;
  reported_size : N;
  s3_delete : string → bool;
  lambda : LambdaRun;
  log_put : bool
}.

(** *** services/lambdaService.js and the image processor together *)

(** The outcome of [lambdaClient.send] and [JSON.parse] as
    [processImage] sees it. *)
Definition invocation (e : Env) : Invocation :=
  match lambda e with
  | Unreachable m => Rejected m
  | FunctionError m =>
      Replied {| errorMessage := Some m; thumbnailKey := None |}
  | Completed _ => Replied returned
  end.

(** The bucket once [processImage(key, route_options)] has settled:
    a completed run of the handler on the payload has worked on it. *)
Definition invoked (e : Env) (key : string) (b : gmap string S3Object)
    : gmap string S3Object :=
  match lambda e with
  | Completed upload_ok =>
      (handler upload_ok (payload S3_BUCKET_NAME key route_options) b).2
  | Unreachable _ | FunctionError _ => b
  end.

(** *** config/aws.js, services/s3Service.js *)

Definition S3_CONFIG_bucket : string := or_str S3_BUCKET_NAME "pixelboard-uploads".
Definition S3_CONFIG_region : string := or_str AWS_REGION "us-east-1".

Definition getPublicUrl (key : string) : string :=
  "https://" ++ S3_CONFIG_bucket ++ ".s3." ++ S3_CONFIG_region
    ++ ".amazonaws.com/" ++ key.

Definition deleteFromS3 (e : Env) (key : string) (b : gmap string S3Object)
    : Exn (gmap string S3Object) :=
  if s3_delete e key then Ok (delete key b)
  else Throw "Failed to delete file from S3".

(** The part of the multipart body named 'photo'. *)
Record FilePart := {
  originalname : string;
  part_mimetype : string;
  part_size : N;
  content : Buffer
}.

(** [req.file] as multer-s3 leaves it. *)
Record File := {
  key : string;
  location : string;
  file_originalname : string;
  file_mimetype : string;
  file_size : N
}.

Inductive Multer :=
  | NoFile
  | Accepted (file : File)
  | Failed (code : option string) (message : string).

Definition fileFilter (mimetype : string) : bool :=
  startsWith mimetype "image/".

Definition fileSize : N := 10 * 1024 * 1024.

(** The [key] callback of the multer-s3 storage. *)
Definition key_of (e : Env) (name : string) : string :=
  "photos/" ++ pretty (now e) ++ "-" ++ uuid e ++ extname name.

(** [location] is the URL S3 reports for the object, of the form
    [getPublicUrl] builds; [size] is what multer-s3 reports; no content
    type is configured for the storage, so objects get multer-s3's
    default one. *)
Definition stored_file (e : Env) (f : FilePart) : File :=
  let k := key_of e (originalname f) in
  {| key := k; location := getPublicUrl k;
     file_originalname := originalname f;
     file_mimetype := part_mimetype f;
     file_size := reported_size e |}.

Definition stored_object (f : FilePart) : S3Object :=
  {| Body := content f; ContentType := "application/octet-stream" |}.

(** What the storage has received of a part that exceeds the limit when
    the stream is cut. *)
Definition cut_object (f : FilePart) : S3Object :=
  {| Body := truncate fileSize (content f);
     ContentType := "application/octet-stream" |}.

(** [upload.single('photo')].  A part the filter refuses is not handed
    to the storage.  A part is handed to the storage before its size is
    known: when the limit trips, the stream is cut, the storage
    finishes its write, and multer has the storage remove what it wrote
    ([_removeFile], a DeleteObject) before it reports LIMIT_FILE_SIZE.
    The size test is busboy's; a part of exactly the limit is taken to
    pass.  Otherwise the object is in the bucket under the generated
    key. *)
Definition upload_single (e : Env) (part : option FilePart)
    (b : gmap string S3Object) : Multer * gmap string S3Object :=
  match part with
  | None => (NoFile, b)
  | Some f =>
      let k := key_of e (originalname f) in
      if negb (fileFilter (part_mimetype f))
      then (Failed None "Only image files are allowed!", b)
      else if N.ltb fileSize (part_size f)
      then (Failed (Some "LIMIT_FILE_SIZE") "File too large",
            if s3_put e
            then (if s3_delete e k then delete k (<[k := cut_object f]> b)
                  else <[k := cut_object f]> b)
            else b)
      else if negb (s3_put e)
      then (Failed None "S3 upload failed", b)
      else (Accepted (stored_file e f), <[k := stored_object f]> b)
  end.

(** *** server.js: the error-handling middleware *)

Definition error_middleware (code : option string) (message : string)
    : Response :=
  if decide (code = Some "LIMIT_FILE_SIZE")
  then {| status := 400; body := Message "File too large" |}
  else if decide (code = Some "LIMIT_UNEXPECTED_FILE")
  then {| status := 400; body := Message "Unexpected file field" |}
  else {| status := 500;
          body := Message (if production then "Internal server error"
                           else message) |}.

(** *** services/dynamoService.js: [logActivity] never throws *)

Definition logActivity (e : Env) (a : Activity) (st : State) : State :=
  if log_put e then with_log (activity_log st ++ [a])%list st else st.

(** *** Mongoose [save] *)

Definition insert_photo (id : ObjectId) (p : Photo.t) (st : State)
    : Exn State :=
  if negb (Photo.validate p) then Throw "Photo validation failed"
  else match db_photos st !! id with
       | Some _ => Throw "E11000 duplicate key error"
       | None => Ok (with_photos (<[id := p]> (db_photos st)) st)
       end.

Definition update_photo (id : ObjectId) (p : Photo.t) (st : State)
    : Exn State :=
  if negb (Photo.validate p) then Throw "Photo validation failed"
  else Ok (with_photos (<[id := p]> (db_photos st)) st).

(** *** routes/photos.js, S3 variant *)

Record UploadRequest := {
  req_title : Text;
  req_description : option Text;
  req_file : option FilePart
}.

(** [body('title').isLength({ min: 1 })], run on the title as sent. *)
Definition title_valid (title : Text) : bool :=
  Nat.leb 1 (isLength_length selectors_counted title).

Definition uploaded_view (id : ObjectId) (p : Photo.t) : PhotoView :=
  {| v_id := id; v_title := Photo.title p;
     v_description := Photo.description p;
     v_s3Location := Photo.s3Location p;
     v_thumbnailS3Key := Photo.thumbnailS3Key p;
     v_uploadedBy := None; v_createdAt := Photo.createdAt p |}.

(** [new Photo({...})]: the validators of the route have trimmed the
    title and the description, the setters of the schema trim them
    again; the status takes its default. *)
Definition new_photo (e : Env) (user : ObjectId) (r : UploadRequest)
    (f : File) (thumbnailKey : option string) : Photo.t :=
  let title := trim (req_title r) in
  let description := trim <$> req_description r in
  let s3Key := key f in
  let s3Location := location f in
  Photo.mk (trim title) (trim (or_text description [])) (key f)
    (file_originalname f) (file_mimetype f) (file_size f) None
    s3Key s3Location thumbnailKey pending None user [] 0 (now e).

(** The handler proper, run once multer has filled [req.file]. *)
Definition upload_handler (e : Env) (user : ObjectId) (r : UploadRequest)
    (file : option File) (st : State) : Response * State :=
  if negb (title_valid (req_title r))
  then ({| status := 400; body := Errors |}, st)
  else match file with
  | None => ({| status := 400; body := Message "No file uploaded" |}, st)
  | Some f =>
      let thumbnailKey :=
        match processImage (invocation e) with
        | Ok k => k
        | Throw _ => None
        end in
      let st0 := with_bucket (invoked e (key f) (s3_bucket st)) st in
      let photo := new_photo e user r f thumbnailKey in
      match insert_photo (newId e) photo st0 with
      | Throw _ => ({| status := 500; body := Message "Server error" |}, st0)
      | Ok st1 =>
          let st2 :=
            logActivity e
              {| userId := user; activity := "photo_upload";
                 photoId := newId e; photoTitle := Photo.title photo;
                 fileSize_logged := Some (Photo.size photo);
                 timestamp := now e |} st1 in
          ({| status := 201;
              body := PhotoBody (Some "Photo uploaded successfully")
                        (uploaded_view (newId e) photo) |}, st2)
      end
  end.

Definition post_upload (e : Env) (user : ObjectId) (r : UploadRequest)
    (st : State) : Response * State :=
  match upload_single e (req_file r) (s3_bucket st) with
  | (Failed code m, b) => (error_middleware code m, with_bucket b st)
  | (NoFile, b) => upload_handler e user r None (with_bucket b st)
  | (Accepted f, b) => upload_handler e user r (Some f) (with_bucket b st)
  end.

Definition get_photo (id : ObjectId) (st : State) : Response :=
  match db_photos st !! id with
  | None => {| status := 404; body := Message "Photo not found" |}
  | Some p =>
      match db_users st !! Photo.uploadedBy p with
      | None => {| status := 500; body := Message "Server error" |}
      | Some username =>
          {| status := 200;
             body := PhotoBody None
               {| v_id := id; v_title := Photo.title p;
                  v_description := Photo.description p;
                  v_s3Location := Photo.s3Location p;
                  v_thumbnailS3Key := Photo.thumbnailS3Key p;
                  v_uploadedBy := Some username;
                  v_createdAt := Photo.createdAt p |} |}
      end
  end.

(** The [try] block of the delete route: the first failing delete
    skips the rest, what was deleted stays deleted. *)
Definition delete_blobs (e : Env) (p : Photo.t) (b : gmap string S3Object)
    : gmap string S3Object :=
  match (if truthy (Photo.s3Key p) then deleteFromS3 e (Photo.s3Key p) b
         else Ok b) with
  | Throw _ => b
  | Ok b1 =>
      match (if truthy_opt (Photo.thumbnailS3Key p)
             then deleteFromS3 e (default "" (Photo.thumbnailS3Key p)) b1
             else Ok b1) with
      | Throw _ => b1
      | Ok b2 => b2
      end
  end.

Definition delete_photo (e : Env) (user : ObjectId) (id : ObjectId)
    (st : State) : Response * State :=
  match db_photos st !! id with
  | None => ({| status := 404; body := Message "Photo not found" |}, st)
  | Some photo =>
      if negb (N.eqb (Photo.uploadedBy photo) user)
      then ({| status := 403;
               body := Message "Not authorized to delete this photo" |}, st)
      else
        let st1 := with_bucket (delete_blobs e photo (s3_bucket st)) st in
        let st2 := with_photos (delete id (db_photos st1)) st1 in
        let st3 :=
          logActivity e
            {| userId := user; activity := "photo_delete"; photoId := id;
               photoTitle := Photo.title photo; fileSize_logged := None;
               timestamp := now e |} st2 in
        ({| status := 200; body := Message "Photo deleted successfully" |},
         st3)
  end.

Definition reprocess (e : Env) (user : ObjectId) (id : ObjectId)
    (st : State) : Response * State :=
  match db_photos st !! id with
  | None => ({| status := 404; body := Message "Photo not found" |}, st)
  | Some photo =>
      if negb (N.eqb (Photo.uploadedBy photo) user)
      then ({| status := 403;
               body := Message "Not authorized to reprocess this photo" |},
            st)
      else
        let st0 :=
          with_bucket (invoked e (Photo.s3Key photo) (s3_bucket st)) st in
        match (do k <- processImage (invocation e);
               do st1 <- update_photo id (Photo.set_thumbnailS3Key k photo) st0;
               Ok (k, st1)) with
        | Throw _ =>
            ({| status := 500;
                body := Message "Failed to reprocess photo" |}, st0)
        | Ok (k, st1) =>
            ({| status := 200;
                body := Reprocessed "Photo reprocessed successfully" k |},
             st1)
        end
  end.

(** *** The album routes *)

(** [Photo.find({ _id: { $in: photoIds }, uploadedBy: user })] *)
Definition find_owned (user : ObjectId) (photoIds : list ObjectId)
    (st : State) : gmap N Photo.t :=
  filter (λ x : N * Photo.t, x.1 ∈ photoIds ∧ Photo.uploadedBy x.2 = user)
    (db_photos st).

(** [Photo.updateMany({ _id: { $in: ids } }, { $push: { albums: a } })] *)
Definition push_album (ids : list ObjectId) (a : ObjectId)
    (m : gmap N Photo.t) : gmap N Photo.t :=
  map_imap (λ i p,
    Some (if bool_decide (i ∈ ids)
          then Photo.set_albums (Photo.albums p ++ [a])%list p else p)) m.

(** [Photo.updateMany({ _id: { $in: ids } }, { $pull: { albums: a } })] *)
Definition pull_album (ids : list ObjectId) (a : ObjectId)
    (m : gmap N Photo.t) : gmap N Photo.t :=
  map_imap (λ i p,
    Some (if bool_decide (i ∈ ids)
          then Photo.set_albums (filter (λ x, x ≠ a) (Photo.albums p)) p
          else p)) m.

Record CreateAlbum := {
  ca_title : Text;
  ca_description : option Text;
  ca_photoIds : option (list ObjectId)
}.

Definition album_view (id : ObjectId) (a : Album.t) (username : string)
    (st : State) : AlbumView :=
  {| av_id := id; av_title := Album.title a;
     av_description := Album.description a;
     av_photoCount :=
       length (filter (λ i, is_Some (db_photos st !! i)) (Album.photos a));
     av_coverPhoto :=
       c ← Album.coverPhoto a; p ← db_photos st !! c;
       (if truthy_opt (Photo.thumbnailPath p) then Photo.thumbnailPath p
        else None);
     av_createdBy := username; av_createdAt := Album.createdAt a |}.

Definition some_not_owned : Response :=
  {| status := 400;
     body := Message "Some photos not found or not owned by user" |}.

Definition create_album (e : Env) (user : ObjectId) (r : CreateAlbum)
    (st : State) : Response * State :=
  if negb (title_valid (ca_title r))
  then ({| status := 400; body := Errors |}, st)
  else
    let title := trim (ca_title r) in
    let description := trim <$> ca_description r in
    let photoIds := default [] (ca_photoIds r) in
    if Nat.ltb 0 (length photoIds)
       && negb (Nat.eqb (size (find_owned user photoIds st))
                  (length photoIds))
    then (some_not_owned, st)
    else
      let album :=
        Album.mk (trim title) (trim (or_text description [])) user photoIds
          (head photoIds) (now e) in
      if negb (Album.validate album)
         || bool_decide (is_Some (db_albums st !! newId e))
      then ({| status := 500; body := Message "Server error" |}, st)
      else
        let st1 := with_albums (<[newId e := album]> (db_albums st)) st in
        let st2 :=
          if Nat.ltb 0 (length photoIds)
          then with_photos (push_album photoIds (newId e) (db_photos st1)) st1
          else st1 in
        match db_users st2 !! user with
        | None => ({| status := 500; body := Message "Server error" |}, st2)
        | Some username =>
            ({| status := 201;
                body := AlbumBody "Album created successfully"
                          (album_view (newId e) album username st2) |}, st2)
        end.

Definition album_not_found : Response :=
  {| status := 404; body := Message "Album not found" |}.

(** [album.save()] in the two routes below validates again a title and
    a description the routes do not touch: it is an update in place. *)
Definition add_photos (user : ObjectId) (id : ObjectId)
    (photoIds : list ObjectId) (st : State) : Response * State :=
  match db_albums st !! id with
  | None => (album_not_found, st)
  | Some album =>
      if negb (N.eqb (Album.createdBy album) user)
      then ({| status := 403;
               body := Message "Not authorized to modify this album" |}, st)
      else if negb (Nat.eqb (size (find_owned user photoIds st))
                      (length photoIds))
      then (some_not_owned, st)
      else
        let newPhotoIds :=
          filter (λ i, i ∉ Album.photos album) photoIds in
        let photos := (Album.photos album ++ newPhotoIds)%list in
        let coverPhoto :=
          match Album.coverPhoto album with
          | Some c => Some c
          | None => head newPhotoIds
          end in
        let st1 :=
          with_albums
            (<[id := Album.set_membership photos coverPhoto album]>
               (db_albums st)) st in
        let st2 := with_photos (push_album newPhotoIds id (db_photos st1)) st1 in
        ({| status := 200;
            body := Message "Photos added to album successfully" |}, st2)
  end.

Definition remove_photos (user : ObjectId) (id : ObjectId)
    (photoIds : list ObjectId) (st : State) : Response * State :=
  match db_albums st !! id with
  | None => (album_not_found, st)
  | Some album =>
      if negb (N.eqb (Album.createdBy album) user)
      then ({| status := 403;
               body := Message "Not authorized to modify this album" |}, st)
      else
        let photos := filter (λ i, i ∉ photoIds) (Album.photos album) in
        let coverPhoto :=
          match Album.coverPhoto album with
          | Some c => if bool_decide (c ∈ photoIds) then head photos
                      else Some c
          | None => None
          end in
        let st1 :=
          with_albums
            (<[id := Album.set_membership photos coverPhoto album]>
               (db_albums st)) st in
        let st2 := with_photos (pull_album photoIds id (db_photos st1)) st1 in
        ({| status := 200;
            body := Message "Photos removed from album successfully" |}, st2)
  end.

Definition delete_album (user : ObjectId) (id : ObjectId) (st : State)
    : Response * State :=
  match db_albums st !! id with
  | None => (album_not_found, st)
  | Some album =>
      if negb (N.eqb (Album.createdBy album) user)
      then ({| status := 403;
               body := Message "Not authorized to delete this album" |}, st)
      else
        let st1 :=
          with_photos (pull_album (Album.photos album) id (db_photos st)) st in
        let st2 := with_albums (delete id (db_albums st1)) st1 in
        ({| status := 200; body := Message "Album deleted successfully" |},
         st2)
  end.

(** *** The requests that write to the photo collection, and GET /:id *)

Inductive Request :=
  | PostUpload (e : Env) (user : ObjectId) (r : UploadRequest)
  | GetPhoto (id : ObjectId)
  | DeletePhoto (e : Env) (user : ObjectId) (id : ObjectId)
  | Reprocess (e : Env) (user : ObjectId) (id : ObjectId)
  | PostCreateAlbum (e : Env) (user : ObjectId) (r : CreateAlbum)
  | AddPhotos (user : ObjectId) (id : ObjectId) (photoIds : list ObjectId)
  | RemovePhotos (user : ObjectId) (id : ObjectId) (photoIds : list ObjectId)
  | DeleteAlbum (user : ObjectId) (id : ObjectId).

Definition run (q : Request) (st : State) : Response * State :=
  match q with
  | PostUpload e user r => post_upload e user r st
  | GetPhoto id => (get_photo id st, st)
  | DeletePhoto e user id => delete_photo e user id st
  | Reprocess e user id => reprocess e user id st
  | PostCreateAlbum e user r => create_album e user r st
  | AddPhotos user id photoIds => add_photos user id photoIds st
  | RemovePhotos user id photoIds => remove_photos user id photoIds st
  | DeleteAlbum user id => delete_album user id st
  end.

(** *** routes/photos.js, local-disk variant

    The documents of this variant are those of the Photo schema, the
    only one among the sources, which keeps [thumbnailPath] as a legacy
    field and requires [s3Key] and [s3Location]; this route sets
    neither of the two. *)

Record LocalState := {
  local_photos : gmap N Photo.t;
  disk : gmap string Buffer
}.

Record LocalEnv := {
  l_now : N;
  l_random : N;
  l_newId : ObjectId
}.

Definition local_filename (e : LocalEnv) (name : string) : string :=
  pretty (l_now e) ++ "-" ++ pretty (l_random e) ++ extname name.

(** multer with [diskStorage]: [req.file.filename], and the file
    written under uploads/; a part that exceeds the limit is written up
    to the limit and unlinked again.  The server of this variant
    installs no error middleware: a request multer refuses is answered
    500. *)
Definition local_upload_single (e : LocalEnv) (part : option FilePart)
    (d : gmap string Buffer)
    : Exn (option (string * FilePart)) * gmap string Buffer :=
  match part with
  | None => (Ok None, d)
  | Some f =>
      let name := local_filename e (originalname f) in
      if negb (fileFilter (part_mimetype f))
      then (Throw "Only image files are allowed", d)
      else if N.ltb fileSize (part_size f)
      then (Throw "File too large", delete ("uploads/" ++ name) d)
      else (Ok (Some (name, f)), <["uploads/" ++ name := content f]> d)
  end.

Definition generateThumbnail_local (inputPath outputPath : string)
    (d : gmap string Buffer) : bool * gmap string Buffer :=
  match (do input <- match d !! inputPath with
                     | Some buf => Ok buf
                     | None => Throw "Input file is missing"
                     end;
         sharp_output [resize 300 300 "cover" "center"; jpeg 80] input) with
  | Ok out => (true, <[outputPath := out]> d)
  | Throw _ => (false, d)
  end.

(** [new Photo({ title, description, filename, originalName, mimetype,
    size, thumbnailPath, uploadedBy })]: the paths the route does not
    name are absent, or take the default of the schema. *)
Definition local_photo (e : LocalEnv) (user : ObjectId)
    (title description : Text) (filename : string) (f : FilePart)
    (thumbnailPath : string) : Photo.t :=
  {| Photo.title := trim title; Photo.description := trim description;
     Photo.filename := filename; Photo.originalName := originalname f;
     Photo.mimetype := part_mimetype f; Photo.size := part_size f;
     Photo.thumbnailPath := Some thumbnailPath;
     Photo.s3Key := ""; Photo.s3Location := "";
     Photo.thumbnailS3Key := None;
     Photo.processingStatus := pending; Photo.processingError := None;
     Photo.uploadedBy := user; Photo.albums := []; Photo.views := 0;
     Photo.createdAt := l_now e |}.

Definition local_upload_handler (e : LocalEnv) (user : ObjectId)
    (r : UploadRequest) (file : option (string * FilePart))
    (st : LocalState) : Response * LocalState :=
  if negb (title_valid (req_title r))
  then ({| status := 400; body := Errors |}, st)
  else match file with
  | None => ({| status := 400; body := Message "No file uploaded" |}, st)
  | Some (filename, f) =>
      let title := trim (req_title r) in
      let description := trim <$> req_description r in
      let path := "uploads/" ++ filename in
      let thumbnailFilename := "thumb_" ++ filename in
      let thumbnailPath := "uploads/thumbnails/" ++ thumbnailFilename in
      let (thumbnailGenerated, d1) :=
        generateThumbnail_local path thumbnailPath (disk st) in
      if negb thumbnailGenerated
      then ({| status := 500;
               body := Message "Failed to generate thumbnail" |},
            {| local_photos := local_photos st;
               disk := delete path d1 |})
      else
        let photo :=
          local_photo e user title (or_text description []) filename f
            ("/uploads/thumbnails/" ++ thumbnailFilename) in
        if Photo.validate photo
           && bool_decide (local_photos st !! l_newId e = None)
        then ({| status := 201;
                 body := LocalPhotoBody "Photo uploaded successfully"
                   {| lv_id := l_newId e; lv_title := Photo.title photo;
                      lv_description := Photo.description photo;
                      lv_thumbnailPath := Photo.thumbnailPath photo;
                      lv_originalPath := "/uploads/" ++ filename;
                      lv_createdAt := Photo.createdAt photo |} |},
              {| local_photos := <[l_newId e := photo]> (local_photos st);
                 disk := d1 |})
        else ({| status := 500; body := Message "Server error" |},
              {| local_photos := local_photos st;
                 disk := delete path d1 |})
  end.

Definition local_post_upload (e : LocalEnv) (user : ObjectId)
    (r : UploadRequest) (st : LocalState) : Response * LocalState :=
  match local_upload_single e (req_file r) (disk st) with
  | (Throw m, d) =>
      ({| status := 500; body := Message m |},
       {| local_photos := local_photos st; disk := d |})
  | (Ok file, d) =>
      local_upload_handler e user r file
        {| local_photos := local_photos st; disk := d |}
  end.

(** ** Further definitions *)

(** Whether a key contains the separator. *)
Fixpoint has_slash (s : string) : bool :=
  match s with
  | EmptyString => false
  | String c r => Ascii.eqb c "/" || has_slash r
  end.

(** *** services/lambdaService.js: [processImageBatch] *)

Inductive BatchResult :=
  | Processed (originalKey : string) (thumbnailKey : option string)
  | NotProcessed (key : string) (error : string).

Definition batch_success (r : BatchResult) : bool :=
  match r with
  | Processed _ _ => true
  | NotProcessed _ _ => false
  end.

(** Whether [processImage] resolves on an outcome of the invocation. *)
Definition resolves (inv : Invocation) : bool :=
  match processImage inv with
  | Ok _ => true
  | Throw _ => false
  end.

(** One key of a batch, with the outcome of its invocation:
    [this.processImage(key, ...)] and the [catch] chained on it. *)
Definition process_one (call : string * Invocation) : BatchResult :=
  match processImage call.2 with
  | Ok k => Processed call.1 k
  | Throw m => NotProcessed call.1 m
  end.

(** The [for] loop: [calls] is what lies from index [i] on; a round
    takes the slice of [batchSize] keys and advances [i] by
    [batchSize].  A batch size of at least one needs no more rounds than
    there are keys. *)
Fixpoint batch_loop (rounds : nat) (batchSize : nat)
    (calls : list (string * Invocation)) (results : list BatchResult)
    : list BatchResult :=
  match rounds with
  | O => results
  | S rounds' =>
      match calls with
      | [] => results
      | _ :: _ =>
          batch_loop rounds' batchSize (drop batchSize calls)
            (results ++ (process_one <$> take batchSize calls))%list
      end
  end.

Record BatchSummary := {
  batch_processed : nat;
  batch_failed : nat;
  batch_results : list BatchResult
}.

Definition processImageBatch (batchSize : option N)
    (calls : list (string * Invocation)) : BatchSummary :=
  let batchSize := N.to_nat (or_num batchSize 5) in
  let results := batch_loop (length calls) batchSize calls [] in
  {| batch_processed := length (filter (λ r, batch_success r = true) results);
     batch_failed := length (filter (λ r, batch_success r ≠ true) results);
     batch_results := results |}.

(** *** routes/photos.js: GET /my-photos *)

Definition photo_view (id : ObjectId) (p : Photo.t) (username : string)
    : PhotoView :=
  {| v_id := id; v_title := Photo.title p;
     v_description := Photo.description p;
     v_s3Location := Photo.s3Location p;
     v_thumbnailS3Key := Photo.thumbnailS3Key p;
     v_uploadedBy := Some username;
     v_createdAt := Photo.createdAt p |}.

(** [sort({ createdAt: -1 })] *)
Definition newest_first (x y : ObjectId * Photo.t) : Prop :=
  (Photo.createdAt y.2 ≤ Photo.createdAt x.2)%N.

#[global] Instance newest_first_dec x y : Decision (newest_first x y).
Proof. unfold newest_first. apply _. Defined.

Record PhotoList := { list_status : N; listed : list PhotoView }.

(** The requester's photos, newest first; documents of the same
    instant come in the order the sort leaves them.  Every listed
    photo is populated with the requester's account: reading the
    username of a missing account throws. *)
Definition my_photos (user : ObjectId) (st : State) : PhotoList :=
  let photos :=
    merge_sort newest_first
      (map_to_list
         (filter (λ x : N * Photo.t, Photo.uploadedBy x.2 = user)
            (db_photos st))) in
  match photos, db_users st !! user with
  | _ :: _, None => {| list_status := 500; listed := [] |}
  | _, Some username =>
      {| list_status := 200;
         listed := (λ x, photo_view x.1 x.2 username) <$> photos |}
  | [], None => {| list_status := 200; listed := [] |}
  end.

(** *** routes/photos.js, local-disk variant: DELETE /:id *)

Definition local_delete_photo (user : ObjectId) (id : ObjectId)
    (st : LocalState) : Response * LocalState :=
  match local_photos st !! id with
  | None => ({| status := 404; body := Message "Photo not found" |}, st)
  | Some photo =>
      if negb (N.eqb (Photo.uploadedBy photo) user)
      then ({| status := 403;
               body := Message "Not authorized to delete this photo" |}, st)
      else
        let photoPath := "uploads/" ++ Photo.filename photo in
        let thumbnailPath :=
          "uploads/thumbnails/" ++ "thumb_" ++ Photo.filename photo in
        ({| status := 200; body := Message "Photo deleted successfully" |},
         {| local_photos := delete id (local_photos st);
            disk := delete thumbnailPath (delete photoPath (disk st)) |})
  end.

(** *** Notions used by the further properties *)

(** A list of characters that does not begin with white space. *)
Definition clean_start (l : Text) : Prop :=
  match l with
  | [] => True
  | c :: _ => is_space c = false
  end.

(** The same environment, with another outcome of the activity write. *)
Definition with_log_put (b : bool) (e : Env) : Env :=
  {| now := now e; uuid := uuid e; newId := newId e; s3_put := s3_put e;
     reported_size := reported_size e; s3_delete := s3_delete e;
     lambda := lambda e; log_put := b |}.

(** The thumbnail key the upload route gets from the invocation. *)
Definition delivered (e : Env) : option string :=
  match processImage (invocation e) with
  | Ok k => k
  | Throw _ => None
  end.

(** Every album a photo lists exists and contains the photo. *)
Definition back_references (st : State) : Prop :=
  ∀ i p a, db_photos st !! i = Some p → a ∈ Photo.albums p →
    ∃ album, db_albums st !! a = Some album ∧ i ∈ Album.photos album.

(** A cover photo is a member of its album, and only an empty album
    has none. *)
Definition cover_ok (album : Album.t) : Prop :=
  match Album.coverPhoto album with
  | Some c => c ∈ Album.photos album
  | None => Album.photos album = []
  end.

Definition cover_in_album (st : State) : Prop :=
  ∀ a album, db_albums st !! a = Some album → cover_ok album.

(** The document [new Album({...})] of the create route. *)
Definition new_album (e : Env) (user : ObjectId) (r : CreateAlbum) : Album.t :=
  Album.mk (trim (trim (ca_title r)))
    (trim (or_text (trim <$> ca_description r) [])) user
    (default [] (ca_photoIds r)) (head (default [] (ca_photoIds r))) (now e).

(** The album as add-photos and remove-photos save it. *)
Definition album_with (photoIds : list ObjectId) (album : Album.t)
    : Album.t :=
  let newPhotoIds := filter (λ i, i ∉ Album.photos album) photoIds in
  Album.set_membership (Album.photos album ++ newPhotoIds)%list
    match Album.coverPhoto album with
    | Some c => Some c
    | None => head newPhotoIds
    end album.

Definition album_without (photoIds : list ObjectId) (album : Album.t)
    : Album.t :=
  let photos := filter (λ i, i ∉ photoIds) (Album.photos album) in
  Album.set_membership photos
    match Album.coverPhoto album with
    | Some c => if bool_decide (c ∈ photoIds) then head photos else Some c
    | None => None
    end album.

(** The three invariants as checks that run on a state. *)
Definition listed_in (st : State) (i a : ObjectId) : bool :=
  match db_albums st !! a with
  | Some album => bool_decide (i ∈ Album.photos album)
  | None => false
  end.

Definition back_references_check (st : State) : bool :=
  bool_decide
    (map_Forall (λ i p, forallb (listed_in st i) (Photo.albums p) = true)
       (db_photos st)).

Definition cover_ok_check (album : Album.t) : bool :=
  match Album.coverPhoto album with
  | Some c => bool_decide (c ∈ Album.photos album)
  | None => bool_decide (Album.photos album = [])
  end.

Definition cover_in_album_check (st : State) : bool :=
  bool_decide (map_Forall (λ _ album, cover_ok_check album = true)
                 (db_albums st)).

Definition albums_nodup_check (st : State) : bool :=
  bool_decide (map_Forall (λ _ album, NoDup (Album.photos album))
                 (db_albums st)).

(** ** Properties *)

(** A request that fails the input constraints: its title is empty
    after trimming, or its file is not an image or has more than
    10 MiB. *)
Definition fails_validation (r : UploadRequest) : Prop :=
  trim (req_title r) = [] ∨
  ∃ part, req_file r = Some part ∧
    (fileFilter (part_mimetype part) = false ∨ (fileSize < part_size part)%N).

(** The thumbnail derivation for [key] failed: the invocation was
    rejected or ended in a function error, or the handler answered
    500. *)
Definition derivation_failed (e : Env) (key : string)
    (b : gmap string S3Object) : Prop :=
  match lambda e with
  | Completed upload_ok =>
      statusCode
        (handler upload_ok (payload S3_BUCKET_NAME key route_options) b).1
      ≠ 200%N
  | Unreachable _ | FunctionError _ => True
  end.

(** The moves of the processing status the data model allows. *)
Inductive status_step : relation ProcessingStatus :=
  | begin_processing : status_step pending processing
  | end_completed : status_step processing completed
  | end_failed : status_step processing failed.

(** The requester owns photo [i]. *)
Definition owns (st : State) (user : ObjectId) (i : ObjectId) : Prop :=
  Photo.uploadedBy <$> db_photos st !! i = Some user.

#[global] Instance owns_dec st user i : Decision (owns st user i).
Proof. unfold owns. apply _. Defined.

(** No album lists a photo twice. *)
Definition albums_nodup (st : State) : Prop :=
  ∀ id a, db_albums st !! id = Some a → NoDup (Album.photos a).

(** Two versions of a photo with the same status, owner and thumbnail
    key. *)
Definition same_core (p p' : Photo.t) : Prop :=
  Photo.processingStatus p' = Photo.processingStatus p ∧
  Photo.uploadedBy p' = Photo.uploadedBy p ∧
  Photo.thumbnailS3Key p' = Photo.thumbnailS3Key p.

(** *** Lists *)

Lemma filter_none {A} (P : A → Prop) `{!∀ x, Decision (P x)} (l : list A) :
  (∀ x, x ∈ l → ¬ P x) → filter P l = [].
Proof.
  induction l as [|x l IH]; intros Hl; [done|].
  rewrite filter_cons, decide_False; [|apply Hl; left].
  apply IH. intros y Hy. apply Hl. by right.
Qed.

(** *** Keys *)

Lemma split_slash_cons s : ∃ h t, split_slash s = h :: t.
Proof.
  induction s as [|c r (h & t & IH)]; simpl; [by eexists _, _|].
  destruct (Ascii.eqb c "/"); [by eexists _, _|]. rewrite IH. by eexists _, _.
Qed.

Lemma split_slash_free s : has_slash s = false → split_slash s = [s].
Proof.
  induction s as [|c r IH]; simpl; [done|].
  destruct (Ascii.eqb c "/"); [done|]. simpl. intros Hr. by rewrite IH.
Qed.

Lemma split_slash_app d f :
  split_slash (d ++ "/" ++ f) = (split_slash d ++ split_slash f)%list.
Proof.
  induction d as [|c r IH]; simpl; [done|].
  destruct (Ascii.eqb c "/"); simpl; [by rewrite IH|].
  rewrite IH. by destruct (split_slash_cons r) as (h & t & ->).
Qed.

Lemma join_split_slash s : join_slash (split_slash s) = s.
Proof.
  induction s as [|c r IH]; [done|]. simpl.
  destruct (split_slash_cons r) as (h & t & Hr). rewrite Hr in *.
  destruct (Ascii.eqb c "/") eqn:Hc.
  - apply Ascii.eqb_eq in Hc as ->.
    change (join_slash ("" :: h :: t)) with ("" ++ "/" ++ join_slash (h :: t)).
    by rewrite IH.
  - destruct t as [|h' t'].
    + change (String c h = String c r). f_equal. exact IH.
    + change (String c (h ++ "/" ++ join_slash (h' :: t')) = String c r).
      f_equal. exact IH.
Qed.

(** A key is a bare file name, or a directory, a separator and a file
    name. *)
Lemma key_cases k :
  has_slash k = false ∨ ∃ d f, k = d ++ "/" ++ f ∧ has_slash f = false.
Proof.
  induction k as [|c r [IH|(d & f & -> & Hf)]]; [by left| |].
  - destruct (Ascii.eqb c "/") eqn:Hc.
    + apply Ascii.eqb_eq in Hc as ->. right. by exists "", r.
    + left. simpl. by rewrite Hc.
  - right. by exists (String c d), f.
Qed.

Lemma has_slash_app d f : has_slash (d ++ "/" ++ f) = true.
Proof. induction d as [|c r IH]; simpl; [done|]. by rewrite IH, orb_true_r. Qed.

Lemma string_length_app a b :
  String.length (a ++ b) = (String.length a + String.length b)%nat.
Proof. induction a as [|c r IH]; simpl; [done|]. by rewrite IH. Qed.

Lemma string_app_assoc a b c : (a ++ b) ++ c = a ++ b ++ c.
Proof.
  induction a as [|x r IH]; [done|].
  change (String x ((r ++ b) ++ c) = String x (r ++ b ++ c)). by f_equal.
Qed.

Lemma string_app_inv_head a b c : a ++ b = a ++ c → b = c.
Proof.
  induction a as [|x r IH]; [done|].
  change (String x (r ++ b) = String x (r ++ c) → b = c).
  intros [= Heq]. by apply IH.
Qed.

Lemma dirname_basename d f :
  has_slash f = false →
  join_slash (removelast (split_slash (d ++ "/" ++ f))) = d ∧
  List.last (split_slash (d ++ "/" ++ f)) "" = f.
Proof.
  intros Hf. rewrite split_slash_app, (split_slash_free f) by done.
  rewrite removelast_last, List.last_last. split; [|done].
  apply join_split_slash.
Qed.

Lemma thumbnail_in_directory d f :
  has_slash f = false →
  getThumbnailKey (d ++ "/" ++ f) = d ++ "/thumbnails/thumb_" ++ f.
Proof.
  intros Hf. unfold getThumbnailKey.
  by destruct (dirname_basename d f Hf) as [-> ->].
Qed.

Lemma thumbnail_of_bare_name f :
  has_slash f = false → getThumbnailKey f = "/thumbnails/thumb_" ++ f.
Proof. intros Hf. unfold getThumbnailKey. by rewrite (split_slash_free f). Qed.

Lemma thumbnail_key_longer k :
  (String.length k + 17 ≤ String.length (getThumbnailKey k))%nat.
Proof.
  destruct (key_cases k) as [Hk|(d & f & -> & Hf)].
  - rewrite thumbnail_of_bare_name, string_length_app by done. simpl. lia.
  - rewrite thumbnail_in_directory, !string_length_app by done. simpl. lia.
Qed.

Lemma thumbnail_key_neq k : getThumbnailKey k ≠ k.
Proof.
  intros Heq. pose proof (thumbnail_key_longer k) as Hlen.
  rewrite Heq in Hlen. lia.
Qed.

(** *** Trimmed strings *)

Lemma trim_start_clean l : clean_start (trim_start l).
Proof.
  induction l as [|c r IH]; simpl; [done|].
  destruct (is_space c) eqn:Hc; [done|]. simpl. done.
Qed.

Lemma trim_start_id l : clean_start l → trim_start l = l.
Proof. destruct l as [|c r]; simpl; [done|]. by intros ->. Qed.

Lemma trim_start_suffix l :
  ∃ sp, l = (sp ++ trim_start l)%list ∧ Forall (λ c, is_space c = true) sp.
Proof.
  induction l as [|c r (sp & IH & Hsp)]; simpl; [by exists []|].
  destruct (is_space c) eqn:Hc; [|by exists []].
  exists (c :: sp). split; [simpl; by f_equal|by constructor].
Qed.

Lemma trim_start_nil l :
  trim_start l = [] ↔ Forall (λ c, is_space c = true) l.
Proof.
  induction l as [|c r IH]; simpl; [done|].
  destruct (is_space c) eqn:Hc.
  - rewrite IH. split; [by constructor|by inversion 1].
  - split; [done|]. inversion 1. congruence.
Qed.

Lemma trim_idempotent s : trim (trim s) = trim s.
Proof.
  unfold trim.
  set (l1 := trim_start s).
  set (l2 := trim_start (rev l1)).
  assert (clean_start (rev l2)) as Hclean.
  { destruct (trim_start_suffix (rev l1)) as (sp & Hsp & _). fold l2 in Hsp.
    apply (f_equal (@rev _)) in Hsp. rewrite rev_involutive, rev_app_distr in Hsp.
    pose proof (trim_start_clean s) as H1. fold l1 in H1.
    destruct (rev l2) as [|x r]; [done|]. rewrite Hsp in H1. done. }
  rewrite (trim_start_id (rev l2)) by done.
  rewrite rev_involutive, (trim_start_id l2); [done|]. apply trim_start_clean.
Qed.

(** A text is empty after trimming exactly when it is white space
    throughout. *)
Lemma trim_nil s : trim s = [] ↔ Forall (λ c, is_space c = true) s.
Proof.
  unfold trim. split.
  - intros Hnil. apply (f_equal (@rev _)) in Hnil.
    rewrite rev_involutive in Hnil. cbn in Hnil.
    apply trim_start_nil in Hnil.
    destruct (trim_start_suffix s) as (sp & Hs & Hsp). rewrite Hs.
    apply Forall_app. split; [done|].
    apply Forall_forall. intros c Hc.
    rewrite Forall_forall in Hnil. apply Hnil.
    by apply list_elem_of_In, in_rev, list_elem_of_In in Hc.
  - intros Hs. apply trim_start_nil in Hs. by rewrite Hs.
Qed.

Lemma space_plain c :
  is_space c = true → is_selector c = false ∧ is_high_surrogate c = false.
Proof.
  unfold is_space, is_selector, is_high_surrogate.
  rewrite !orb_true_iff, !andb_true_iff, !N.leb_le, !N.eqb_eq.
  intros Hc. split.
  - apply orb_false_iff. rewrite !N.eqb_neq. lia.
  - apply andb_false_iff. rewrite !N.leb_gt. lia.
Qed.

Lemma plain_length s :
  Forall (λ c, is_selector c = false ∧ is_high_surrogate c = false) s →
  selectors s = 0%nat ∧ surrogate_pairs s = 0%nat.
Proof.
  induction 1 as [|c r [Hsel Hhigh] Hr [IHsel IHpairs]]; [done|]. split.
  - unfold selectors in *. cbn. by rewrite Hsel.
  - cbn. destruct r as [|l r']; [done|]. by rewrite Hhigh.
Qed.

(** On a title that is empty after trimming, the title check of the
    routes only refuses the empty string. *)
Lemma title_valid_blank s : trim s = [] → title_valid s = nonempty s.
Proof.
  intros Hs. apply trim_nil in Hs.
  destruct (plain_length s) as [Hsel Hpairs].
  { eapply Forall_impl; [exact Hs|]. intros c. apply space_plain. }
  unfold title_valid, isLength_length. rewrite Hsel, Hpairs.
  destruct selectors_counted; by destruct s.
Qed.

Lemma title_valid_nonempty s : title_valid s = true → s ≠ [].
Proof. by intros Hs ->. Qed.

(** *** The invocation *)

Lemma process_bucket upload_ok ev b res b' :
  process upload_ok ev b = Ok (res, b') →
  b' = b ∨ ∃ o, b' = <[getThumbnailKey (imageKey ev) := o]> b.
Proof.
  unfold process, getObject.
  destruct (negb (truthy (imageKey ev)) || negb (truthy_opt (bucket ev)));
    [done|].
  destruct (b !! imageKey ev) as [original|]; [|done]. simpl.
  destruct (sharp_metadata (Body original)) as [meta|]; [|done]. simpl.
  case_bool_decide; [|intros [= <- <-]; by left].
  destruct (sharp_output _ (Body original)) as [out|]; [|done]. simpl.
  destruct upload_ok; [|done]. simpl. intros [= <- <-]. right. by eexists.
Qed.

Lemma handler_bucket upload_ok ev b :
  (handler upload_ok ev b).2 = b ∨
  ∃ o, (handler upload_ok ev b).2 = <[getThumbnailKey (imageKey ev) := o]> b.
Proof.
  unfold handler.
  destruct (process upload_ok ev b) as [[res b']|] eqn:Hrun; [|by left].
  by apply process_bucket in Hrun.
Qed.

Lemma invoked_cases e key b :
  invoked e key b = b ∨ ∃ o, invoked e key b = <[getThumbnailKey key := o]> b.
Proof.
  unfold invoked. destruct (lambda e) as [m|m|ok]; [by left|by left|].
  apply (handler_bucket ok (payload S3_BUCKET_NAME key route_options) b).
Qed.

Lemma invoked_lookup_ne e key b k :
  k ≠ getThumbnailKey key → invoked e key b !! k = b !! k.
Proof.
  intros Hk. destruct (invoked_cases e key b) as [->|[o ->]]; [done|].
  by rewrite lookup_insert_ne.
Qed.

Lemma invoked_original e key b : invoked e key b !! key = b !! key.
Proof.
  apply invoked_lookup_ne. intros Heq. by apply (thumbnail_key_neq key).
Qed.

(** A completed run answers with the handler's return value, in which
    [processImage] finds no thumbnail key. *)
Lemma invocation_result e k :
  processImage (invocation e) = Ok k → k = None.
Proof.
  unfold invocation. destruct (lambda e) as [m|m|ok]; cbn; [done| |].
  - destruct (truthy m); [done|]. by intros [= <-].
  - by intros [= <-].
Qed.

Lemma invocation_failed e m :
  processImage (invocation e) = Throw m → ∀ key b, invoked e key b = b.
Proof.
  unfold invocation, invoked. by destruct (lambda e).
Qed.

(** *** The ownership query *)

Lemma find_owned_lookup user ids st i p :
  find_owned user ids st !! i = Some p ↔
  db_photos st !! i = Some p ∧ i ∈ ids ∧ Photo.uploadedBy p = user.
Proof.
  unfold find_owned. by rewrite map_lookup_filter_Some.
Qed.

Lemma find_owned_dom user ids st i :
  i ∈ dom (find_owned user ids st) ↔ i ∈ ids ∧ owns st user i.
Proof.
  rewrite elem_of_dom. unfold is_Some, owns. split.
  - intros [p Hp]. apply find_owned_lookup in Hp as (Hp & Hi & Hu).
    split; [done|]. by rewrite Hp; simpl; f_equal.
  - intros [Hi Ho]. destruct (db_photos st !! i) as [p|] eqn:Hp; [|done].
    exists p. apply find_owned_lookup. simpl in Ho.
    injection Ho as Ho. by split.
Qed.

Lemma find_owned_submseteq user ids st :
  elements (dom (find_owned user ids st)) ⊆+ ids.
Proof.
  apply NoDup_submseteq; [apply NoDup_elements|].
  intros i Hi. by apply elem_of_elements, find_owned_dom in Hi as [Hi _].
Qed.

Lemma find_owned_size user ids st :
  size (find_owned user ids st) = length (elements (dom (find_owned user ids st))).
Proof. by rewrite <- size_dom. Qed.

(** The query finds as many documents as there are ids exactly when the
    ids are pairwise distinct and all owned by the requester. *)
Lemma find_owned_all user ids st :
  size (find_owned user ids st) = length ids ↔
  NoDup ids ∧ Forall (owns st user) ids.
Proof.
  rewrite find_owned_size. split.
  - intros Hlen.
    assert (elements (dom (find_owned user ids st)) ≡ₚ ids) as Hperm.
    { apply submseteq_length_Permutation; [apply find_owned_submseteq|lia]. }
    split.
    + rewrite <- Hperm. apply NoDup_elements.
    + apply Forall_forall. intros i Hi. rewrite <- Hperm in Hi.
      by apply elem_of_elements, find_owned_dom in Hi as [_ Hi].
  - intros [Hnd Hall]. apply Nat.le_antisymm.
    + apply submseteq_length, find_owned_submseteq.
    + apply submseteq_length, NoDup_submseteq; [done|].
      intros i Hi. apply elem_of_elements, find_owned_dom. split; [done|].
      by eapply Forall_forall in Hall.
Qed.

Lemma find_owned_check user ids st :
  negb (Nat.eqb (size (find_owned user ids st)) (length ids)) = false ↔
  NoDup ids ∧ Forall (owns st user) ids.
Proof.
  rewrite negb_false_iff, Nat.eqb_eq. apply find_owned_all.
Qed.

(** *** Membership updates of the photo collection *)

Lemma push_album_lookup ids a (m : gmap N Photo.t) i :
  push_album ids a m !! i =
  (λ p, if bool_decide (i ∈ ids)
        then Photo.set_albums (Photo.albums p ++ [a])%list p else p) <$> m !! i.
Proof.
  unfold push_album. rewrite map_lookup_imap. by destruct (m !! i).
Qed.

Lemma pull_album_lookup ids a (m : gmap N Photo.t) i :
  pull_album ids a m !! i =
  (λ p, if bool_decide (i ∈ ids)
        then Photo.set_albums (filter (λ x, x ≠ a) (Photo.albums p)) p
        else p) <$> m !! i.
Proof.
  unfold pull_album. rewrite map_lookup_imap. by destruct (m !! i).
Qed.

Lemma push_album_nil a (m : gmap N Photo.t) : push_album [] a m = m.
Proof.
  apply map_eq. intros i. rewrite push_album_lookup.
  by destruct (m !! i).
Qed.

(** *** Album membership *)

(** C10: when [photoIds] lists an id twice, the ownership check of
    add-photos rejects the call although the requester owns every
    listed photo: the query returns each owned photo once, fewer
    documents than [photoIds] has entries.  The answer is 400 and the
    state is unchanged. *)
Theorem add_photos_rejects_duplicates user id photoIds st album :
  db_albums st !! id = Some album →
  Album.createdBy album = user →
  Forall (owns st user) photoIds →
  ¬ NoDup photoIds →
  size (find_owned user photoIds st) < length photoIds ∧
  add_photos user id photoIds st =
    ({| status := 400;
        body := Message "Some photos not found or not owned by user" |}, st).
Proof.
  intros Ha Hu Hown Hdup.
  assert (size (find_owned user photoIds st) ≠ length photoIds) as Hne.
  { intros Heq. apply find_owned_all in Heq as [Hnd _]. by apply Hdup. }
  split.
  - pose proof (submseteq_length _ _ (find_owned_submseteq user photoIds st)).
    rewrite <- find_owned_size in *. lia.
  - unfold add_photos. rewrite Ha, Hu, N.eqb_refl. simpl.
    apply Nat.eqb_neq in Hne. by rewrite Hne.
Qed.

(** C5, as amended: add-photos and album creation check that every id
    of [photoIds] is a photo of the requester before they write; when
    one is not, add-photos answers a client error (400, or 403/404 for
    the album itself) and album creation answers 400, and the state is
    the one before the call.  (remove-photos makes no such check.) *)
Theorem unowned_photo_rejected user photoIds st :
  ¬ Forall (owns st user) photoIds →
  (∀ id, client_error (add_photos user id photoIds st).1 = true ∧
         (add_photos user id photoIds st).2 = st) ∧
  (∀ e r, ca_photoIds r = Some photoIds →
          status (create_album e user r st).1 = 400%N ∧
          (create_album e user r st).2 = st).
Proof.
  intros Hnot.
  assert (negb (Nat.eqb (size (find_owned user photoIds st))
                  (length photoIds)) = true) as Hcheck.
  { apply not_false_iff_true. intros Hf.
    apply find_owned_check in Hf as [_ Hall]. by apply Hnot. }
  split.
  - intros id. unfold add_photos.
    destruct (db_albums st !! id) as [album|]; [|done].
    destruct (negb (Album.createdBy album =? user)%N); [done|].
    by rewrite Hcheck.
  - intros e r Hr. unfold create_album. rewrite Hr. simpl.
    destruct (negb (title_valid (ca_title r))); [done|].
    rewrite Hcheck.
    destruct photoIds as [|i l]; [by destruct Hnot|done].
Qed.

Lemma post_upload_albums e user r st :
  db_albums (post_upload e user r st).2 = db_albums st.
Proof.
  assert (∀ file st1, db_albums (upload_handler e user r file st1).2
                      = db_albums st1) as Hhandler.
  { intros file st1. unfold upload_handler.
    destruct (negb (title_valid (req_title r))); [done|].
    destruct file as [f|]; [|done]. unfold insert_photo.
    destruct (negb (Photo.validate _)); [done|].
    cbn [db_photos with_bucket].
    destruct (db_photos st1 !! newId e); [done|].
    unfold logActivity. by destruct (log_put e). }
  unfold post_upload.
  destruct (upload_single e (req_file r) (s3_bucket st)) as [[|f|code m] b];
    [..|done]; by rewrite Hhandler.
Qed.

Lemma delete_photo_albums e user id st :
  db_albums (delete_photo e user id st).2 = db_albums st.
Proof.
  unfold delete_photo, logActivity. repeat case_match; simplify_eq/=; done.
Qed.

Lemma reprocess_albums e user id st :
  db_albums (reprocess e user id st).2 = db_albums st.
Proof.
  unfold reprocess, update_photo.
  destruct (db_photos st !! id) as [p|]; [|done].
  destruct (negb (Photo.uploadedBy p =? user)%N); [done|].
  destruct (processImage (invocation e)) as [k|]; [|done]. simpl.
  by destruct (negb (Photo.validate (Photo.set_thumbnailS3Key k p))).
Qed.

(** X23: every route keeps the album lists free of duplicates: album
    creation and add-photos only accept a list the ownership query
    matches one to one. *)
Lemma run_albums_nodup q st : albums_nodup st → albums_nodup (run q st).2.
Proof.
  intros Hwf.
  destruct q as [e user r|id|e user id|e user id|e user r|user id ids
                |user id ids|user id]; simpl.
  - intros i a. rewrite post_upload_albums. apply Hwf.
  - done.
  - intros i a. rewrite delete_photo_albums. apply Hwf.
  - intros i a. rewrite reprocess_albums. apply Hwf.
  - unfold create_album.
    destruct (negb (title_valid (ca_title r))); [done|].
    destruct (Nat.ltb 0 (length (default [] (ca_photoIds r))) && _)
      eqn:Hcheck; [done|].
    destruct (negb (Album.validate _) || _); [done|].
    assert (NoDup (default [] (ca_photoIds r))) as Hnd.
    { apply andb_false_iff in Hcheck as [Hlen|Hcheck].
      - apply Nat.ltb_ge in Hlen.
        destruct (default [] (ca_photoIds r)); [apply NoDup_nil_2|].
        simpl in Hlen. lia.
      - by apply find_owned_check in Hcheck as [? _]. }
    assert (albums_nodup
              (with_albums
                 (<[newId e := new_album e user r]> (db_albums st)) st))
      as Hins.
    { intros i a. simpl. destruct (decide (i = newId e)) as [->|Hne].
      - rewrite lookup_insert_eq. by intros [= <-].
      - rewrite lookup_insert_ne by done. apply Hwf. }
    repeat case_match; apply Hins.
  - unfold add_photos.
    destruct (db_albums st !! id) as [album|] eqn:Ha; [|done].
    destruct (negb (Album.createdBy album =? user)%N); [done|].
    destruct (negb _) eqn:Hcheck; [done|].
    apply find_owned_check in Hcheck as [Hnd _].
    intros i a. simpl. destruct (decide (i = id)) as [->|Hne].
    + rewrite lookup_insert_eq. intros [= <-]. simpl.
      apply NoDup_app. split; [by eapply Hwf|]. split.
      * intros x Hx Hf. apply list_elem_of_filter in Hf as [Hf _]. by apply Hf.
      * by apply NoDup_filter.
    + rewrite lookup_insert_ne by done. apply Hwf.
  - unfold remove_photos.
    destruct (db_albums st !! id) as [album|] eqn:Ha; [|done].
    destruct (negb (Album.createdBy album =? user)%N); [done|].
    intros i a. simpl. destruct (decide (i = id)) as [->|Hne].
    + rewrite lookup_insert_eq. intros [= <-]. simpl.
      apply NoDup_filter. by eapply Hwf.
    + rewrite lookup_insert_ne by done. apply Hwf.
  - unfold delete_album.
    destruct (db_albums st !! id) as [album|] eqn:Ha; [|done].
    destruct (negb (Album.createdBy album =? user)%N); [done|].
    intros i a. simpl. intros Hi. apply lookup_delete_Some in Hi as [_ Hi].
    by eapply Hwf.
Qed.

(** C4: for an album of the requester whose photo list has no
    duplicates and a duplicate-free list of photos the requester owns,
    add-photos succeeds, a second call with the same list succeeds and
    changes nothing, the membership is the old list followed by the
    new ids, without duplicates, and an unset cover photo becomes the
    first new id when there is one. *)
Theorem add_photos_idempotent user id photoIds st album :
  db_albums st !! id = Some album →
  Album.createdBy album = user →
  NoDup (Album.photos album) →
  NoDup photoIds →
  Forall (owns st user) photoIds →
  let st1 := (add_photos user id photoIds st).2 in
  let newPhotoIds := filter (λ i, i ∉ Album.photos album) photoIds in
  status (add_photos user id photoIds st).1 = 200%N ∧
  add_photos user id photoIds st1 =
    ({| status := 200; body := Message "Photos added to album successfully" |},
     st1) ∧
  ∃ album1,
    db_albums st1 !! id = Some album1 ∧
    Album.photos album1 = (Album.photos album ++ newPhotoIds)%list ∧
    NoDup (Album.photos album1) ∧
    (∀ i, i ∈ Album.photos album1 ↔ i ∈ Album.photos album ∨ i ∈ photoIds) ∧
    (Album.coverPhoto album = None → newPhotoIds ≠ [] →
     Album.coverPhoto album1 = head newPhotoIds ∧
     is_Some (Album.coverPhoto album1)).
Proof.
  intros Ha Hu Hnd Hids Hown st1 newPhotoIds.
  assert (negb (Nat.eqb (size (find_owned user photoIds st))
                  (length photoIds)) = false) as Hcheck.
  { by apply find_owned_check. }
  assert (add_photos user id photoIds st =
    ({| status := 200; body := Message "Photos added to album successfully" |},
     with_photos (push_album newPhotoIds id (db_photos st))
       (with_albums
          (<[id := Album.set_membership
                     (Album.photos album ++ newPhotoIds)%list
                     (match Album.coverPhoto album with
                      | Some c => Some c
                      | None => head newPhotoIds
                      end) album]> (db_albums st)) st))) as Hfirst.
  { unfold add_photos. by rewrite Ha, Hu, N.eqb_refl, Hcheck. }
  subst st1. rewrite Hfirst. simpl.
  set (album1 := Album.set_membership _ _ album).
  set (st1 := with_photos _ _).
  assert (db_albums st1 !! id = Some album1) as Ha1.
  { subst st1. simpl. apply lookup_insert_eq. }
  assert (∀ i, i ∈ Album.photos album1 ↔
               i ∈ Album.photos album ∨ i ∈ photoIds) as Hmem.
  { intros i. subst album1 newPhotoIds. simpl.
    rewrite elem_of_app, list_elem_of_filter.
    destruct (decide (i ∈ Album.photos album)) as [Hin|Hin].
    - split; intros _; by left.
    - split; [intros [?|[_ ?]]; [by left|by right]|].
      intros [?|?]; [by left|by right]. }
  split; [done|]. split.
  - unfold add_photos. rewrite Ha1. subst album1. simpl.
    rewrite Hu, N.eqb_refl. simpl.
    assert (negb (Nat.eqb (size (find_owned user photoIds st1))
                    (length photoIds)) = false) as ->.
    { apply find_owned_check. split; [done|].
      eapply Forall_impl; [exact Hown|]. intros i Hi. subst st1.
      unfold owns in *. simpl. rewrite push_album_lookup.
      destruct (db_photos st !! i); simpl in *; [|done].
      by destruct (bool_decide (i ∈ newPhotoIds)). }
    assert (filter (λ i, i ∉ (Album.photos album ++ newPhotoIds)%list)
              photoIds = []) as ->.
    { apply filter_none. intros i Hi Hni.
      apply Hni, Hmem. by right. }
    f_equal. rewrite app_nil_r, push_album_nil.
    assert (∀ c : option ObjectId,
              match c with Some c0 => Some c0 | None => head [] end = c) as ->.
    { by intros []. }
    subst st1. unfold with_photos, with_albums. simpl. f_equal.
    rewrite insert_insert_eq. f_equal.
  - exists album1. split; [done|]. split; [done|]. split; [|split; [done|]].
    + subst album1 newPhotoIds. simpl. apply NoDup_app. split; [done|]. split.
      * intros i Hi Hf. apply list_elem_of_filter in Hf as [Hf _]. by apply Hf.
      * by apply NoDup_filter.
    + intros Hc Hne. subst album1. simpl. rewrite Hc. split; [done|].
      destruct newPhotoIds; [done|]. by eexists.
Qed.

(** C6: when remove-photos is given a list containing the album's cover
    photo, the photo list keeps, in order, the members not listed, and
    the cover photo becomes the first of them, or null when none is
    left; removing the only photo of an album leaves it with no photo
    and no cover. *)
Theorem remove_photos_cover user id photoIds st album c :
  db_albums st !! id = Some album →
  Album.createdBy album = user →
  Album.coverPhoto album = Some c →
  c ∈ photoIds →
  let remaining := filter (λ i, i ∉ photoIds) (Album.photos album) in
  status (remove_photos user id photoIds st).1 = 200%N ∧
  (∃ album1,
     db_albums (remove_photos user id photoIds st).2 !! id = Some album1 ∧
     Album.photos album1 = remaining ∧
     Album.coverPhoto album1 = head remaining ∧
     (remaining = [] → Album.coverPhoto album1 = None) ∧
     (Album.photos album = [c] →
      Album.photos album1 = [] ∧ Album.coverPhoto album1 = None)).
Proof.
  intros Ha Hu Hc Hin remaining. unfold remove_photos.
  rewrite Ha, Hu, N.eqb_refl, Hc. simpl.
  rewrite bool_decide_eq_true_2 by done. split; [done|].
  eexists. split; [apply lookup_insert_eq|]. simpl. fold remaining.
  split; [done|]. split; [done|]. split.
  - by intros ->.
  - intros Hone. subst remaining. rewrite Hone.
    rewrite (filter_none (λ i, i ∉ photoIds) [c]); [done|].
    intros i Hi. apply list_elem_of_singleton in Hi as ->.
    intros Hnotin. by apply Hnotin.
Qed.

(** *** Photos: deletion *)

(** C7: a delete request for an existing photo by anyone but its owner
    is answered 403 and leaves the whole state as it was: the record is
    still found, no object of the bucket is deleted, and fetching the
    photo answers what it answered before (200 with the photo when the
    owner's account exists). *)
Theorem delete_by_other_forbidden e user id st p :
  db_photos st !! id = Some p →
  Photo.uploadedBy p ≠ user →
  delete_photo e user id st =
    ({| status := 403; body := Message "Not authorized to delete this photo" |},
     st) ∧
  db_photos (delete_photo e user id st).2 !! id = Some p ∧
  s3_bucket (delete_photo e user id st).2 = s3_bucket st ∧
  get_photo id (delete_photo e user id st).2 = get_photo id st ∧
  (is_Some (db_users st !! Photo.uploadedBy p) →
   status (get_photo id (delete_photo e user id st).2) = 200%N).
Proof.
  intros Hp Hne.
  assert (delete_photo e user id st =
    ({| status := 403; body := Message "Not authorized to delete this photo" |},
     st)) as Hdel.
  { unfold delete_photo. rewrite Hp.
    apply N.eqb_neq in Hne. by rewrite Hne. }
  rewrite Hdel. simpl. repeat split; try done.
  intros [u Hu]. unfold get_photo. by rewrite Hp, Hu.
Qed.

(** *** Photos: upload *)

Lemma upload_single_accepted e part b f b' :
  upload_single e part b = (Accepted f, b') →
  ∃ p, part = Some p ∧ fileFilter (part_mimetype p) = true ∧
       (part_size p ≤ fileSize)%N ∧ s3_put e = true ∧
       f = stored_file e p ∧
       b' = <[key_of e (originalname p) := stored_object p]> b.
Proof.
  unfold upload_single. destruct part as [p|]; [|done].
  destruct (fileFilter (part_mimetype p)) eqn:Hm; cbn [negb]; [|done].
  destruct (N.ltb fileSize (part_size p)) eqn:Hs; [done|].
  destruct (s3_put e) eqn:Hput; cbn [negb]; [|done].
  intros [= <- <-]. exists p. apply N.ltb_ge in Hs. by repeat split.
Qed.

Lemma upload_single_accepts e p b :
  fileFilter (part_mimetype p) = true →
  (part_size p ≤ fileSize)%N →
  s3_put e = true →
  upload_single e (Some p) b =
    (Accepted (stored_file e p),
     <[key_of e (originalname p) := stored_object p]> b).
Proof.
  intros Hm Hs Hput. unfold upload_single. rewrite Hm, Hput. cbn [negb].
  apply N.ltb_ge in Hs. by rewrite Hs.
Qed.


Lemma derivation_failed_bucket e key b :
  derivation_failed e key b → invoked e key b = b.
Proof.
  unfold derivation_failed, invoked, handler.
  destruct (lambda e) as [m|m|ok]; [done|done|].
  by destruct (process ok _ b) as [[res b1]|].
Qed.

(** What the handler does on a request that passes the title check and
    carries a file that was stored. *)
Lemma upload_handler_stored e user r f st :
  title_valid (req_title r) = true →
  let photo := new_photo e user r f (delivered e) in
  let st0 := with_bucket (invoked e (key f) (s3_bucket st)) st in
  upload_handler e user r (Some f) st =
    if Photo.validate photo && bool_decide (db_photos st !! newId e = None)
    then ({| status := 201;
             body := PhotoBody (Some "Photo uploaded successfully")
                       (uploaded_view (newId e) photo) |},
          logActivity e
            {| userId := user; activity := "photo_upload";
               photoId := newId e; photoTitle := Photo.title photo;
               fileSize_logged := Some (Photo.size photo);
               timestamp := now e |}
            (with_photos (<[newId e := photo]> (db_photos st)) st0))
    else ({| status := 500; body := Message "Server error" |}, st0).
Proof.
  intros Ht photo st0. unfold upload_handler. rewrite Ht. cbn [negb].
  fold (delivered e). fold photo. fold st0. unfold insert_photo.
  destruct (Photo.validate photo); cbn [negb andb]; [|done].
  cbn [db_photos with_bucket st0].
  destruct (db_photos st !! newId e) eqn:Hnew.
  - by rewrite bool_decide_eq_false_2.
  - by rewrite bool_decide_eq_true_2.
Qed.

Lemma logActivity_frame e a st :
  db_photos (logActivity e a st) = db_photos st ∧
  db_albums (logActivity e a st) = db_albums st ∧
  db_users (logActivity e a st) = db_users st ∧
  s3_bucket (logActivity e a st) = s3_bucket st.
Proof. unfold logActivity. by destruct (log_put e). Qed.

Lemma local_upload_single_stored le part d name p d' :
  local_upload_single le part d = (Ok (Some (name, p)), d') →
  part = Some p ∧ name = local_filename le (originalname p) ∧
  d' = <["uploads/" ++ name := content p]> d.
Proof.
  unfold local_upload_single. destruct part as [q|]; [|done].
  destruct (negb (fileFilter (part_mimetype q))); [done|].
  destruct (N.ltb fileSize (part_size q)); [done|].
  by intros [= <- <- <-].
Qed.

(** C1, as amended.  In the S3 variant, an upload that passes the title
    check and whose file multer has accepted and stored is answered 201
    when the derivation fails, provided [save] accepts the document
    (it passes the schema and its id is not in use): the record is
    inserted with [thumbnailS3Key] null, the original is in the bucket,
    the bucket holds nothing else that is new, and nothing of the
    failure shows in the response.  In the local-disk variant, such an
    upload is answered 500 when the thumbnail cannot be generated: the
    original is unlinked and no record is saved. *)
Theorem upload_survives_failed_derivation :
  (∀ e user r f b st,
     title_valid (req_title r) = true →
     upload_single e (req_file r) (s3_bucket st) = (Accepted f, b) →
     derivation_failed e (key f) b →
     let photo := new_photo e user r f None in
     Photo.validate photo = true →
     db_photos st !! newId e = None →
     (post_upload e user r st).1 =
       {| status := 201;
          body := PhotoBody (Some "Photo uploaded successfully")
                    (uploaded_view (newId e) photo) |} ∧
     db_photos (post_upload e user r st).2 !! newId e = Some photo ∧
     Photo.thumbnailS3Key photo = None ∧
     s3_bucket (post_upload e user r st).2 = b ∧
     ∃ part, req_file r = Some part ∧
             b !! key f = Some (stored_object part)) ∧
  (∀ le user r name part d st m,
     title_valid (req_title r) = true →
     local_upload_single le (req_file r) (disk st) = (Ok (Some (name, part)), d) →
     sharp_output [resize 300 300 "cover" "center"; jpeg 80] (content part)
       = Throw m →
     local_post_upload le user r st =
       ({| status := 500; body := Message "Failed to generate thumbnail" |},
        {| local_photos := local_photos st;
           disk := delete ("uploads/" ++ name) d |}) ∧
     disk (local_post_upload le user r st).2 !! ("uploads/" ++ name) = None).
Proof.
  split.
  - intros e user r f b st Ht Hup Hfail photo Hvalid Hnew.
    unfold post_upload. rewrite Hup.
    rewrite upload_handler_stored by done.
    cbn [s3_bucket db_photos with_bucket].
    assert (delivered e = None) as ->.
    { unfold delivered.
      destruct (processImage (invocation e)) as [k|] eqn:Hk; [|done].
      by apply invocation_result in Hk. }
    fold photo. rewrite Hvalid, Hnew, bool_decide_eq_true_2 by done.
    cbn [andb fst snd].
    rewrite (derivation_failed_bucket e (key f) b) by done.
    match goal with
    | |- context [logActivity e ?a ?x] =>
        destruct (logActivity_frame e a x) as (-> & _ & _ & ->)
    end.
    cbn [db_photos s3_bucket with_photos with_bucket].
    split; [done|]. split; [apply lookup_insert_eq|]. split; [done|].
    split; [done|].
    apply upload_single_accepted in Hup as (p & Hp & _ & _ & _ & -> & ->).
    exists p. split; [done|]. apply lookup_insert_eq.
  - intros le user r name part d st m Ht Hup Hout.
    unfold local_post_upload. rewrite Hup.
    apply local_upload_single_stored in Hup as (_ & _ & ->).
    unfold local_upload_handler. rewrite Ht. cbn [negb].
    unfold generateThumbnail_local. cbn [disk local_photos].
    rewrite lookup_insert_eq. cbn [bindE]. rewrite Hout. cbn [negb fst snd disk].
    split; [done|]. apply lookup_delete_eq.
Qed.




(** *** The Lambda image processor *)

(** What a run of the handler that produced a thumbnail went through. *)
Lemma process_thumbnail upload_ok ev b k m tk tm b' :
  process upload_ok ev b = Ok (Success k m (Some (tk, tm)), b') →
  ∃ original out,
    b !! imageKey ev = Some original ∧
    sharp_output
      (thumbnail_pipeline (default default_size (thumbnailSize (options ev)))
         (or_num (quality (options ev)) 80)
         (or_str (format (options ev)) "jpeg")) (Body original) = Ok out ∧
    tk = getThumbnailKey (imageKey ev) ∧
    b' = <[tk := {| Body := out;
                    ContentType :=
                      "image/" ++ or_str (format (options ev)) "jpeg" |}]> b.
Proof.
  unfold process, getObject.
  destruct (negb (truthy (imageKey ev)) || negb (truthy_opt (bucket ev)));
    [done|].
  destruct (b !! imageKey ev) as [original|]; [|done]. simpl.
  destruct (sharp_metadata (Body original)) as [meta|]; [|done]. simpl.
  case_bool_decide; [|done].
  destruct (sharp_output _ (Body original)) as [out|] eqn:Hout; [|done]. simpl.
  destruct upload_ok; [|done]. simpl. intros [= <- <- <- <- <-].
  by exists original, out.
Qed.

(** C8: when the handler produces a thumbnail, the object it stores is
    the output of sharp on the original's bytes for a pipeline that
    starts with a resize to the target size with fit "cover" and
    position "center", followed by the JPEG encoder at the requested
    quality when the format is "jpeg", by the PNG encoder at that
    quality when it is "png", and by nothing for any other format. *)
Theorem derivation_formats upload_ok ev b k m tk tm b' :
  process upload_ok ev b = Ok (Success k m (Some (tk, tm)), b') →
  let size := default default_size (thumbnailSize (options ev)) in
  let q := or_num (quality (options ev)) 80 in
  let fmt := or_str (format (options ev)) "jpeg" in
  let cover := resize (width size) (height size) "cover" "center" in
  (∃ original out,
     b !! imageKey ev = Some original ∧
     sharp_output (thumbnail_pipeline size q fmt) (Body original) = Ok out ∧
     b' = <[tk := {| Body := out; ContentType := "image/" ++ fmt |}]> b) ∧
  (fmt = "jpeg" → thumbnail_pipeline size q fmt = [cover; jpeg q]) ∧
  (fmt = "png" → thumbnail_pipeline size q fmt = [cover; png q]) ∧
  (fmt ≠ "jpeg" → fmt ≠ "png" → thumbnail_pipeline size q fmt = [cover]).
Proof.
  intros Hrun size q fmt cover.
  apply process_thumbnail in Hrun as (original & out & Ho & Hout & _ & Hb).
  split; [by exists original, out|].
  unfold thumbnail_pipeline. repeat split.
  - by intros ->.
  - by intros ->.
  - intros Hj Hp. apply String.eqb_neq in Hj, Hp. by rewrite Hj, Hp.
Qed.

(** *** Photos: reprocessing *)

Lemma reprocess_cases e user id st :
  match db_photos st !! id with
  | None =>
      reprocess e user id st =
        ({| status := 404; body := Message "Photo not found" |}, st)
  | Some p =>
      if negb (N.eqb (Photo.uploadedBy p) user)
      then reprocess e user id st =
             ({| status := 403;
                 body := Message "Not authorized to reprocess this photo" |},
              st)
      else
        let st0 := with_bucket (invoked e (Photo.s3Key p) (s3_bucket st)) st in
        match processImage (invocation e) with
        | Throw _ =>
            reprocess e user id st =
              ({| status := 500; body := Message "Failed to reprocess photo" |},
               st0) ∧ st0 = st
        | Ok k =>
            if Photo.validate (Photo.set_thumbnailS3Key k p)
            then reprocess e user id st =
                   ({| status := 200;
                       body := Reprocessed "Photo reprocessed successfully" k |},
                    with_photos
                      (<[id := Photo.set_thumbnailS3Key k p]> (db_photos st))
                      st0)
            else reprocess e user id st =
                   ({| status := 500;
                       body := Message "Failed to reprocess photo" |}, st0)
        end
  end.
Proof.
  unfold reprocess. destruct (db_photos st !! id) as [p|]; [|done].
  destruct (negb (N.eqb (Photo.uploadedBy p) user)); [done|]. cbv zeta.
  destruct (processImage (invocation e)) as [k|m] eqn:Hk; cbn [bindE].
  - unfold update_photo.
    by destruct (Photo.validate (Photo.set_thumbnailS3Key k p)).
  - split; [done|]. rewrite (invocation_failed e m Hk). by destruct st.
Qed.


(** *** What the routes do to the photo collection *)

Lemma same_core_refl p : same_core p p.
Proof. done. Qed.

Lemma push_album_core ids a (m : gmap N Photo.t) i p' :
  push_album ids a m !! i = Some p' → ∃ p, m !! i = Some p ∧ same_core p p'.
Proof.
  rewrite push_album_lookup. destruct (m !! i) as [p|]; [|done]. simpl.
  intros [= <-]. exists p. split; [done|]. by case_bool_decide.
Qed.

Lemma pull_album_core ids a (m : gmap N Photo.t) i p' :
  pull_album ids a m !! i = Some p' → ∃ p, m !! i = Some p ∧ same_core p p'.
Proof.
  rewrite pull_album_lookup. destruct (m !! i) as [p|]; [|done]. simpl.
  intros [= <-]. exists p. split; [done|]. by case_bool_decide.
Qed.

Lemma album_routes_core q st i p' :
  (∃ e user r, q = PostCreateAlbum e user r) ∨
  (∃ user id ids, q = AddPhotos user id ids) ∨
  (∃ user id ids, q = RemovePhotos user id ids) ∨
  (∃ user id, q = DeleteAlbum user id) ∨
  (∃ id, q = GetPhoto id) →
  db_photos (run q st).2 !! i = Some p' →
  ∃ p, db_photos st !! i = Some p ∧ same_core p p'.
Proof.
  intros [(e & user & r & ->)|[(user & id & ids & ->)|[(user & id & ids & ->)|
          [(user & id & ->)|(id & ->)]]]]; simpl.
  - unfold create_album. repeat case_match; simpl;
      eauto using same_core_refl, push_album_core.
  - unfold add_photos. repeat case_match; simpl;
      eauto using same_core_refl, push_album_core.
  - unfold remove_photos. repeat case_match; simpl;
      eauto using same_core_refl, pull_album_core.
  - unfold delete_album. repeat case_match; simpl;
      eauto using same_core_refl, pull_album_core.
  - eauto using same_core_refl.
Qed.

Lemma delete_photo_core e user id st i p' :
  db_photos (delete_photo e user id st).2 !! i = Some p' →
  db_photos st !! i = Some p'.
Proof.
  unfold delete_photo, logActivity. repeat case_match; simpl; try done.
  - intros Hdel. by apply lookup_delete_Some in Hdel as [_ Hdel].
  - intros Hdel. by apply lookup_delete_Some in Hdel as [_ Hdel].
Qed.

Lemma reprocess_core e user id st i p' :
  db_photos (reprocess e user id st).2 !! i = Some p' →
  db_photos st !! i = Some p' ∨
  ∃ p k, i = id ∧ db_photos st !! id = Some p ∧
         processImage (invocation e) = Ok k ∧
         p' = Photo.set_thumbnailS3Key k p.
Proof.
  unfold reprocess.
  destruct (db_photos st !! id) as [p|] eqn:Hp; [|by left].
  destruct (negb (Photo.uploadedBy p =? user)%N); [by left|].
  destruct (processImage (invocation e)) as [k|] eqn:Hk; [|by left]. simpl.
  unfold update_photo.
  destruct (negb (Photo.validate (Photo.set_thumbnailS3Key k p))); [by left|].
  simpl. destruct (decide (i = id)) as [->|Hne].
  - rewrite lookup_insert_eq. intros [= <-]. right. by exists p, k.
  - rewrite lookup_insert_ne by done. by left.
Qed.

Lemma post_upload_core e user r st i p' :
  db_photos (post_upload e user r st).2 !! i = Some p' →
  db_photos st !! i = Some p' ∨
  i = newId e ∧ db_photos st !! i = None ∧
  Photo.processingStatus p' = pending ∧ Photo.uploadedBy p' = user ∧
  ∀ k, Photo.thumbnailS3Key p' = Some k →
       processImage (invocation e) = Ok (Some k).
Proof.
  assert (∀ file st1,
    db_photos st1 = db_photos st →
    db_photos (upload_handler e user r file st1).2 !! i = Some p' →
    db_photos st !! i = Some p' ∨
    i = newId e ∧ db_photos st !! i = None ∧
    Photo.processingStatus p' = pending ∧ Photo.uploadedBy p' = user ∧
    ∀ k, Photo.thumbnailS3Key p' = Some k →
         processImage (invocation e) = Ok (Some k)) as Hhandler.
  { intros file st1 Hst1. unfold upload_handler.
    destruct (negb (title_valid (req_title r)));
      [cbn [snd]; rewrite Hst1; by left|].
    destruct file as [f|]; [|cbn [snd]; rewrite Hst1; by left].
    unfold insert_photo.
    destruct (negb (Photo.validate _));
      [cbn [snd db_photos with_bucket]; rewrite Hst1; by left|].
    cbn [db_photos with_bucket].
    destruct (db_photos st1 !! newId e) eqn:Hnew;
      [cbn [snd db_photos with_bucket]; rewrite Hst1; by left|].
    cbn [snd].
    match goal with
    | |- context [logActivity e ?a ?x] =>
        destruct (logActivity_frame e a x) as (-> & _)
    end.
    cbn [db_photos with_photos]. rewrite Hst1 in *.
    destruct (decide (i = newId e)) as [->|Hne].
    - rewrite lookup_insert_eq. intros [= <-]. right.
      cbn [Photo.processingStatus Photo.uploadedBy Photo.thumbnailS3Key
           new_photo].
      repeat split; try done.
      intros k Hk. by destruct (processImage (invocation e)) as [[?|]|];
        simplify_eq.
    - rewrite lookup_insert_ne by done. by left. }
  unfold post_upload.
  destruct (upload_single e (req_file r) (s3_bucket st)) as [[|f|code m] b];
    [by apply Hhandler|by apply Hhandler|by left].
Qed.

(** C9: over every request, a photo record that exists before and
    after has the same processing status (so the status never leaves
    the chain pending, processing, completed or failed: no handler
    writes it) and the same owner, and its thumbnail key differs only
    after a reprocess call whose processing result carried the new key;
    a record that appears is pending, belongs to the uploader, and has a
    thumbnail key only if the processing result carried it. *)
Theorem photo_record_invariants q st i p' :
  db_photos (run q st).2 !! i = Some p' →
  Photo.processingStatus p' ∈ [pending; processing; completed; failed] ∧
  match db_photos st !! i with
  | Some p =>
      rtc status_step (Photo.processingStatus p) (Photo.processingStatus p') ∧
      Photo.processingStatus p' = Photo.processingStatus p ∧
      Photo.uploadedBy p' = Photo.uploadedBy p ∧
      (Photo.thumbnailS3Key p' ≠ Photo.thumbnailS3Key p →
       ∃ e user, q = Reprocess e user i ∧
                 processImage (invocation e) = Ok (Photo.thumbnailS3Key p'))
  | None =>
      Photo.processingStatus p' = pending ∧
      ∃ e user r, q = PostUpload e user r ∧ i = newId e ∧
                  Photo.uploadedBy p' = user ∧
                  ∀ k, Photo.thumbnailS3Key p' = Some k →
                       processImage (invocation e) = Ok (Some k)
  end.
Proof.
  intros Hafter. split.
  { destruct (Photo.processingStatus p'); set_solver. }
  assert (∀ p, same_core p p' →
    rtc status_step (Photo.processingStatus p) (Photo.processingStatus p') ∧
    Photo.processingStatus p' = Photo.processingStatus p ∧
    Photo.uploadedBy p' = Photo.uploadedBy p ∧
    (Photo.thumbnailS3Key p' ≠ Photo.thumbnailS3Key p →
     ∃ e user, q = Reprocess e user i ∧
               processImage (invocation e) = Ok (Photo.thumbnailS3Key p')))
    as Hcore.
  { intros p (Hs & Ho & Hk). rewrite Hs. by repeat split. }
  destruct q as [e user r|id|e user id|e user id|e user r|user id ids
                |user id ids|user id].
  - simpl in Hafter.
    apply post_upload_core in Hafter as [Hold|(-> & Hnone & Hs & Hu & Hk)].
    + rewrite Hold. apply Hcore, same_core_refl.
    + rewrite Hnone. split; [done|]. by exists e, user, r.
  - apply album_routes_core in Hafter as (p & -> & Hp); [by apply Hcore|].
    do 4 right. by eexists.
  - simpl in Hafter. apply delete_photo_core in Hafter. rewrite Hafter.
    apply Hcore, same_core_refl.
  - simpl in Hafter.
    apply reprocess_core in Hafter as [Hold|(p & k & -> & Hp & Hk & ->)].
    + rewrite Hold. apply Hcore, same_core_refl.
    + rewrite Hp. split; [done|]. repeat split; try done.
      intros _. by exists e, user.
  - apply album_routes_core in Hafter as (p & -> & Hp); [by apply Hcore|].
    left. by do 3 eexists.
  - apply album_routes_core in Hafter as (p & -> & Hp); [by apply Hcore|].
    right; left. by do 3 eexists.
  - apply album_routes_core in Hafter as (p & -> & Hp); [by apply Hcore|].
    do 2 right; left. by do 3 eexists.
  - apply album_routes_core in Hafter as (p & -> & Hp); [by apply Hcore|].
    do 3 right; left. by do 2 eexists.
Qed.

(** ** Further properties *)

(** *** Keys, continued *)

(** X1: the thumbnail of a key with a directory part lies in the
    subdirectory "thumbnails" of that directory, under the file name
    prefixed with "thumb_"; the thumbnail of a bare file name lies in
    "/thumbnails", with a leading separator. *)
Theorem getThumbnailKey_layout d f :
  has_slash f = false →
  getThumbnailKey (d ++ "/" ++ f) = d ++ "/thumbnails/thumb_" ++ f ∧
  getThumbnailKey f = "/thumbnails/thumb_" ++ f.
Proof.
  intros Hf. split.
  - by apply thumbnail_in_directory.
  - by apply thumbnail_of_bare_name.
Qed.

(** X2: the thumbnail key is never the key of the original: it is at
    least 17 characters longer. *)
Theorem getThumbnailKey_distinct k :
  getThumbnailKey k ≠ k ∧
  (String.length k + 17 ≤ String.length (getThumbnailKey k))%nat.
Proof. split; [apply thumbnail_key_neq|apply thumbnail_key_longer]. Qed.

(** X3: two keys that have a directory part and the same thumbnail key
    are the same key: distinct originals under a directory never share a
    thumbnail. *)
Theorem getThumbnailKey_injective k1 k2 :
  has_slash k1 = true → has_slash k2 = true →
  getThumbnailKey k1 = getThumbnailKey k2 → k1 = k2.
Proof.
  intros H1 H2.
  destruct (key_cases k1) as [Hk|(d1 & f1 & -> & Hf1)]; [congruence|].
  destruct (key_cases k2) as [Hk|(d2 & f2 & -> & Hf2)]; [congruence|].
  rewrite !thumbnail_in_directory by done.
  change (?d ++ "/thumbnails/thumb_" ++ ?f)
    with (d ++ "/thumbnails" ++ "/" ++ "thumb_" ++ f).
  rewrite <- !(string_app_assoc _ "/thumbnails"). intros Heq.
  assert (has_slash ("thumb_" ++ f1) = false) as Ht1 by done.
  assert (has_slash ("thumb_" ++ f2) = false) as Ht2 by done.
  destruct (dirname_basename (d1 ++ "/thumbnails") _ Ht1) as [Hd1 Hb1].
  destruct (dirname_basename (d2 ++ "/thumbnails") _ Ht2) as [Hd2 Hb2].
  rewrite Heq in Hd1, Hb1. rewrite Hd2 in Hd1. rewrite Hb2 in Hb1.
  apply string_app_inv_head in Hb1 as <-.
  assert (d1 = d2) as ->; [|done].
  rewrite <- (proj1 (dirname_basename d1 "thumbnails" eq_refl)).
  rewrite <- (proj1 (dirname_basename d2 "thumbnails" eq_refl)).
  change ("/" ++ "thumbnails") with "/thumbnails". by rewrite Hd1.
Qed.

(** X4: a bare file name and the same name behind a leading separator
    have the same thumbnail key. *)
Theorem getThumbnailKey_collision f :
  has_slash f = false →
  "/" ++ f ≠ f ∧ getThumbnailKey ("/" ++ f) = getThumbnailKey f.
Proof.
  intros Hf. split.
  - intros Heq. apply (f_equal String.length) in Heq.
    rewrite string_length_app in Heq. simpl in Heq. lia.
  - change ("/" ++ f) with ("" ++ "/" ++ f).
    by rewrite thumbnail_in_directory, thumbnail_of_bare_name.
Qed.

(** *** The Lambda image processor, continued *)

(** X5: the handler answers 200 exactly when the event names a key and a
    bucket, the original is in the bucket and sharp reads its metadata,
    and, unless the event says [generateThumbnail: false], sharp
    renders the thumbnail and the S3 upload goes through.  In every
    other case it answers 500 and the bucket is as it was. *)
Theorem handler_succeeds_iff upload_ok ev b :
  (statusCode (handler upload_ok ev b).1 = 200%N ↔
   truthy (imageKey ev) = true ∧ truthy_opt (bucket ev) = true ∧
   ∃ original meta,
     b !! imageKey ev = Some original ∧
     sharp_metadata (Body original) = Ok meta ∧
     (generateThumbnail (options ev) = Some false ∨
      upload_ok = true ∧
      ∃ out,
        sharp_output
          (thumbnail_pipeline
             (default default_size (thumbnailSize (options ev)))
             (or_num (quality (options ev)) 80)
             (or_str (format (options ev)) "jpeg")) (Body original) = Ok out)) ∧
  (statusCode (handler upload_ok ev b).1 ≠ 200%N →
   statusCode (handler upload_ok ev b).1 = 500%N ∧
   (handler upload_ok ev b).2 = b).
Proof.
  unfold handler, process, getObject.
  destruct (truthy (imageKey ev)) eqn:Hkey; simpl;
    [|split; [split; [done|by intros (? & _)]|done]].
  destruct (truthy_opt (bucket ev)) eqn:Hbucket; simpl;
    [|split; [split; [done|by intros (_ & ? & _)]|done]].
  destruct (b !! imageKey ev) as [original|] eqn:Horiginal; simpl;
    [|split; [split; [done|by intros (_ & _ & ? & ? & ? & _)]|done]].
  destruct (sharp_metadata (Body original)) as [meta|] eqn:Hmeta; simpl.
  2:{ split; [split; [done|]|done].
      intros (_ & _ & o & m & Ho & Hm & _). congruence. }
  destruct (decide (generateThumbnail (options ev) = Some false)) as [Hgen|Hgen].
  - rewrite bool_decide_eq_false_2 by (by intros ?). simpl.
    split; [|done]. split; [|done]. intros _.
    split; [done|]. split; [done|]. exists original, meta.
    split; [done|]. split; [done|]. by left.
  - rewrite bool_decide_eq_true_2 by done.
    destruct (sharp_output _ (Body original)) as [out|] eqn:Hout; simpl.
    2:{ split; [split; [done|]|done].
        intros (_ & _ & o & m & Ho & Hm & [?|(_ & out & Hout')]); [done|].
        congruence. }
    destruct upload_ok; simpl.
    2:{ split; [split; [done|]|done].
        by intros (_ & _ & o & m & Ho & Hm & [?|(? & _)]). }
    split; [|done]. split; [|done]. intros _.
    split; [done|]. split; [done|]. exists original, meta.
    split; [done|]. split; [done|]. right. split; [done|]. by exists out.
Qed.

(** X6: the handler changes at most one object of the bucket, the one
    under the thumbnail key; every other object, the original among
    them, is as before, and the handler removes nothing. *)
Theorem handler_frame upload_ok ev b :
  (∀ k, k ≠ getThumbnailKey (imageKey ev) →
        (handler upload_ok ev b).2 !! k = b !! k) ∧
  (handler upload_ok ev b).2 !! imageKey ev = b !! imageKey ev ∧
  dom b ⊆ dom (handler upload_ok ev b).2.
Proof.
  assert ((handler upload_ok ev b).2 = b ∨
          ∃ o, (handler upload_ok ev b).2 =
                 <[getThumbnailKey (imageKey ev) := o]> b) as Hcases.
  { unfold handler.
    destruct (process upload_ok ev b) as [[res b']|] eqn:Hrun; [|by left].
    by apply process_bucket in Hrun. }
  destruct Hcases as [Hh|[o Hh]]; rewrite Hh; [done|].
  split; [|split].
  - intros k Hk. by rewrite lookup_insert_ne.
  - rewrite lookup_insert_ne; [done|]. apply thumbnail_key_neq.
  - rewrite dom_insert. apply union_subseteq_r.
Qed.

(** X7: the defaults [processImage] fills into the payload do not change
    what the handler does: it runs on the payload as it would on the
    caller's own options. *)
Theorem payload_defaults_redundant upload_ok key o b :
  handler upload_ok (payload S3_BUCKET_NAME key o) b =
  handler upload_ok
    {| imageKey := key; bucket := S3_BUCKET_NAME; options := o |} b.
Proof.
  unfold handler, process, payload, payload_options, spread. simpl.
  destruct o as [[[]|] [ts|] [q|] [f|]]; simpl; try done.
Qed.

(** *** Batches of invocations *)

Lemma batch_loop_all (rounds batchSize : nat)
    (calls : list (string * Invocation)) (results : list BatchResult) :
  (0 < batchSize)%nat → (length calls ≤ rounds)%nat →
  batch_loop rounds batchSize calls results =
    (results ++ (process_one <$> calls))%list.
Proof.
  intros Hpos. revert calls results.
  induction rounds as [|rounds IH]; intros calls results Hlen.
  - destruct calls; [|simpl in Hlen; lia]. simpl. by rewrite app_nil_r.
  - destruct calls as [|c calls]; [simpl; by rewrite app_nil_r|].
    cbn [batch_loop]. rewrite IH.
    + rewrite <- app_assoc, <- fmap_app, take_drop. done.
    + rewrite length_drop. simpl in *. lia.
Qed.

(** X8: whatever the batch size, [processImageBatch] returns one result
    per key, in the order of the keys: the result of [processImage] on
    that key, or the key with the error message; the two counters add
    up to the number of keys. *)
Theorem processImageBatch_results batchSize calls :
  batch_results (processImageBatch batchSize calls) = process_one <$> calls ∧
  (batch_processed (processImageBatch batchSize calls)
     + batch_failed (processImageBatch batchSize calls))%nat = length calls ∧
  batch_processed (processImageBatch batchSize calls) =
    length (filter (λ c, resolves c.2 = true) calls).
Proof.
  assert (batch_loop (length calls) (N.to_nat (or_num batchSize 5)) calls [] =
          process_one <$> calls) as Hloop.
  { rewrite batch_loop_all; [done| |done].
    unfold or_num. destruct batchSize as [n|]; [|simpl; lia].
    destruct (N.eqb n 0) eqn:Hn; [simpl; lia|]. apply N.eqb_neq in Hn. lia. }
  unfold processImageBatch. simpl. rewrite Hloop. split; [done|].
  clear. induction calls as [|c calls [IH1 IH2]]; [done|].
  assert (batch_success (process_one c) = resolves c.2) as Hbs.
  { unfold process_one, resolves. by destruct (processImage c.2). }
  rewrite fmap_cons. destruct (resolves c.2) eqn:Hr.
  - rewrite (filter_cons_True (λ r, batch_success r = true)) by congruence.
    rewrite (filter_cons_False (λ r, batch_success r ≠ true)) by (simpl; auto).
    rewrite (filter_cons_True (λ c, resolves c.2 = true)) by done.
    simpl. split; [lia|by f_equal].
  - rewrite (filter_cons_False (λ r, batch_success r = true)) by congruence.
    rewrite (filter_cons_True (λ r, batch_success r ≠ true)) by congruence.
    rewrite (filter_cons_False (λ c, resolves c.2 = true)) by congruence.
    simpl. split; [lia|done].
Qed.

(** *** Photos: the outcomes of an upload *)

(** The activity entry of an upload. *)
Lemma post_upload_cases e user r st :
  (∃ f b,
     upload_single e (req_file r) (s3_bucket st) = (Accepted f, b) ∧
     title_valid (req_title r) = true ∧
     Photo.validate (new_photo e user r f (delivered e)) = true ∧
     db_photos st !! newId e = None ∧
     status (post_upload e user r st).1 = 201%N ∧
     body (post_upload e user r st).1 =
       PhotoBody (Some "Photo uploaded successfully")
         (uploaded_view (newId e) (new_photo e user r f (delivered e))) ∧
     db_photos (post_upload e user r st).2 =
       <[newId e := new_photo e user r f (delivered e)]> (db_photos st) ∧
     s3_bucket (post_upload e user r st).2 = invoked e (key f) b) ∨
  (status (post_upload e user r st).1 ≠ 201%N ∧
   db_photos (post_upload e user r st).2 = db_photos st ∧
   activity_log (post_upload e user r st).2 = activity_log st ∧
   ¬ ∃ f b,
       upload_single e (req_file r) (s3_bucket st) = (Accepted f, b) ∧
       title_valid (req_title r) = true ∧
       Photo.validate (new_photo e user r f (delivered e)) = true ∧
       db_photos st !! newId e = None).
Proof.
  unfold post_upload.
  destruct (upload_single e (req_file r) (s3_bucket st)) as [[|f|code m] b].
  - right. unfold upload_handler.
    destruct (negb (title_valid (req_title r))); cbn [fst snd status];
      (split; [done|split; [done|split; [done|by intros (? & ? & ? & _)]]]).
  - destruct (title_valid (req_title r)) eqn:Htitle.
    2:{ right. unfold upload_handler. rewrite Htitle. cbn [negb fst snd status].
        split; [done|]. split; [done|]. split; [done|].
        by intros (? & ? & _ & ? & _). }
    rewrite upload_handler_stored by done. cbn [db_photos s3_bucket with_bucket].
    destruct (Photo.validate (new_photo e user r f (delivered e))) eqn:Hvalid.
    2:{ right. cbn [andb fst snd status db_photos activity_log with_bucket].
        split; [done|]. split; [done|]. split; [done|].
        intros (? & ? & [= <- <-] & _ & ? & _). congruence. }
    destruct (db_photos st !! newId e) eqn:Hnew.
    { right. rewrite bool_decide_eq_false_2 by done.
      cbn [andb fst snd status db_photos activity_log with_bucket].
      split; [done|]. split; [done|]. split; [done|].
      by intros (? & ? & _ & _ & _ & ?). }
    left. exists f, b. rewrite bool_decide_eq_true_2 by done.
    cbn [andb fst snd status body].
    match goal with
    | |- context [logActivity e ?a ?x] =>
        destruct (logActivity_frame e a x) as (-> & _ & _ & ->)
    end.
    by repeat split.
  - right. cbn [fst snd db_photos activity_log with_bucket].
    split; [|split; [done|split; [done|by intros (? & ? & ? & _)]]].
    unfold error_middleware. by repeat case_decide.
Qed.

Lemma upload_handler_users e user r file st :
  db_users (upload_handler e user r file st).2 = db_users st.
Proof.
  unfold upload_handler, insert_photo.
  destruct (negb (title_valid (req_title r))); [done|].
  destruct file as [f|]; [|done].
  destruct (negb (Photo.validate _)); [done|].
  cbn [db_photos with_bucket].
  destruct (db_photos st !! newId e); [done|].
  unfold logActivity. by destruct (log_put e).
Qed.

Lemma post_upload_users e user r st :
  db_users (post_upload e user r st).2 = db_users st.
Proof.
  unfold post_upload.
  destruct (upload_single e (req_file r) (s3_bucket st)) as [[|f|code m] b];
    [..|done]; by rewrite upload_handler_users.
Qed.

(** X9: an upload is answered 201 exactly when multer has accepted its
    file and stored it, its title passes the title check, the document
    passes the schema and its id is new.  Multer accepts only an image
    of at most 10 MiB that S3 takes, and it accepts every image of less
    than 10 MiB that S3 takes.  Any other answer leaves the photo
    collection and the activity log as they were. *)
Theorem post_upload_created_iff e user r st :
  (status (post_upload e user r st).1 = 201%N ↔
   ∃ f b,
     upload_single e (req_file r) (s3_bucket st) = (Accepted f, b) ∧
     title_valid (req_title r) = true ∧
     Photo.validate (new_photo e user r f (delivered e)) = true ∧
     db_photos st !! newId e = None) ∧
  (∀ f b, upload_single e (req_file r) (s3_bucket st) = (Accepted f, b) →
     ∃ part, req_file r = Some part ∧
             fileFilter (part_mimetype part) = true ∧
             (part_size part ≤ fileSize)%N ∧ s3_put e = true) ∧
  (∀ part, req_file r = Some part →
     fileFilter (part_mimetype part) = true →
     (part_size part < fileSize)%N → s3_put e = true →
     ∃ f b, upload_single e (req_file r) (s3_bucket st) = (Accepted f, b)) ∧
  (status (post_upload e user r st).1 ≠ 201%N →
   db_photos (post_upload e user r st).2 = db_photos st ∧
   activity_log (post_upload e user r st).2 = activity_log st).
Proof.
  split; [|split; [|split]].
  - destruct (post_upload_cases e user r st)
      as [(f & b & Hup & Ht & Hv & Hn & Hstatus & _)
         |(Hstatus & Hphotos & Hlog & Hnot)].
    + split; [|done]. intros _. by exists f, b.
    + split; [done|]. intros Hex. by destruct Hnot.
  - intros f b Hup.
    apply upload_single_accepted in Hup as (p & Hp & Hm & Hs & Hput & _).
    by exists p.
  - intros part Hf Hm Hs Hput. rewrite Hf. eexists _, _.
    apply upload_single_accepts; [done|lia|done].
  - intros Hstatus.
    by destruct (post_upload_cases e user r st)
      as [(f & b & _ & _ & _ & _ & Hcreated & _)|(_ & Hphotos & Hlog & _)].
Qed.

(** X10: after an upload answered 201, fetching the new id answers 200
    with the trimmed title, the thumbnail key the invocation delivered
    (none when it failed), the uploader's name and the upload time; the
    original is in the bucket under the key the record carries. *)
Theorem upload_then_get e user r st username :
  status (post_upload e user r st).1 = 201%N →
  db_users st !! user = Some username →
  ∃ v p,
    get_photo (newId e) (post_upload e user r st).2 =
      {| status := 200; body := PhotoBody None v |} ∧
    v_id v = newId e ∧ v_title v = trim (req_title r) ∧
    v_thumbnailS3Key v = delivered e ∧ v_uploadedBy v = Some username ∧
    v_createdAt v = now e ∧
    db_photos (post_upload e user r st).2 !! newId e = Some p ∧
    Photo.filename p = Photo.s3Key p ∧
    is_Some (s3_bucket (post_upload e user r st).2 !! Photo.s3Key p).
Proof.
  intros Hstatus Huser.
  destruct (post_upload_cases e user r st)
    as [(f & b & Hup & _ & _ & _ & _ & _ & Hphotos & Hbucket)
       |(Hne & _)]; [|done].
  pose proof (post_upload_users e user r st) as Husers.
  eexists _, _. unfold get_photo.
  rewrite Hphotos, lookup_insert_eq, Husers.
  cbn [Photo.uploadedBy new_photo]. rewrite Huser.
  split; [done|]. cbn [v_id v_title v_thumbnailS3Key v_uploadedBy v_createdAt
                       Photo.title Photo.thumbnailS3Key Photo.createdAt
                       Photo.filename Photo.s3Key].
  split; [done|]. split; [apply trim_idempotent|]. split; [done|].
  split; [done|]. split; [done|]. split; [done|]. split; [done|].
  rewrite Hbucket, invoked_original.
  apply upload_single_accepted in Hup as (p & _ & _ & _ & _ & -> & ->).
  cbn [key stored_file]. by rewrite lookup_insert_eq.
Qed.

(** X11: whether the activity write goes through changes neither the
    answer of an upload or a delete nor what they do to the photos,
    the albums, the users and the bucket. *)
Theorem logging_is_best_effort e user r id st b :
  (post_upload (with_log_put b e) user r st).1 = (post_upload e user r st).1 ∧
  with_log [] (post_upload (with_log_put b e) user r st).2 =
    with_log [] (post_upload e user r st).2 ∧
  (delete_photo (with_log_put b e) user id st).1 = (delete_photo e user id st).1 ∧
  with_log [] (delete_photo (with_log_put b e) user id st).2 =
    with_log [] (delete_photo e user id st).2.
Proof.
  assert (∀ file st1,
            (upload_handler (with_log_put b e) user r file st1).1 =
              (upload_handler e user r file st1).1 ∧
            with_log [] (upload_handler (with_log_put b e) user r file st1).2 =
              with_log [] (upload_handler e user r file st1).2) as Hhandler.
  { intros file st1. unfold upload_handler, insert_photo, logActivity.
    change (new_photo (with_log_put b e)) with (new_photo e).
    change (invocation (with_log_put b e)) with (invocation e).
    change (invoked (with_log_put b e)) with (invoked e).
    cbn [with_log_put newId log_put now].
    destruct (negb (title_valid (req_title r))); [done|].
    destruct file as [f|]; [|done].
    destruct (negb (Photo.validate _)); [done|].
    cbn [db_photos with_bucket].
    destruct (db_photos st1 !! newId e); [done|].
    by destruct b, (log_put e). }
  assert (upload_single (with_log_put b e) (req_file r) (s3_bucket st) =
          upload_single e (req_file r) (s3_bucket st)) as Hmulter by done.
  split; [|split; [|split]].
  - unfold post_upload. rewrite Hmulter.
    destruct (upload_single e (req_file r) (s3_bucket st)) as [[|f|code m] bk];
      [apply Hhandler..|done].
  - unfold post_upload. rewrite Hmulter.
    destruct (upload_single e (req_file r) (s3_bucket st)) as [[|f|code m] bk];
      [apply Hhandler..|done].
  - unfold delete_photo.
    destruct (db_photos st !! id) as [p|]; [|done].
    by destruct (negb (Photo.uploadedBy p =? user)%N).
  - unfold delete_photo, logActivity.
    change (delete_blobs (with_log_put b e)) with (delete_blobs e).
    cbn [with_log_put log_put now].
    destruct (db_photos st !! id) as [p|]; [|done].
    destruct (negb (Photo.uploadedBy p =? user)%N); [done|].
    by destruct b, (log_put e).
Qed.

(** *** Photos: deletion and reprocessing, continued *)

Lemma delete_by_owner_record e user id st p :
  db_photos st !! id = Some p →
  Photo.uploadedBy p = user →
  (delete_photo e user id st).1 =
    {| status := 200; body := Message "Photo deleted successfully" |} ∧
  db_photos (delete_photo e user id st).2 = delete id (db_photos st).
Proof.
  intros Hp Hu. unfold delete_photo, logActivity.
  rewrite Hp, Hu, N.eqb_refl. cbn [negb]. by destruct (log_put e).
Qed.

Lemma delete_photo_bucket e user id st p :
  db_photos st !! id = Some p →
  Photo.uploadedBy p = user →
  s3_bucket (delete_photo e user id st).2 = delete_blobs e p (s3_bucket st).
Proof.
  intros Hp Hu. unfold delete_photo, logActivity.
  rewrite Hp, Hu, N.eqb_refl. cbn [negb]. by destruct (log_put e).
Qed.

Lemma delete_blobs_cases e p (b : gmap string S3Object) :
  truthy (Photo.s3Key p) = true →
  delete_blobs e p b =
    if s3_delete e (Photo.s3Key p)
    then match Photo.thumbnailS3Key p with
         | Some k =>
             if truthy k && s3_delete e k
             then delete k (delete (Photo.s3Key p) b)
             else delete (Photo.s3Key p) b
         | None => delete (Photo.s3Key p) b
         end
    else b.
Proof.
  intros Hkey. unfold delete_blobs, deleteFromS3. rewrite Hkey.
  destruct (s3_delete e (Photo.s3Key p)); [|done].
  destruct (Photo.thumbnailS3Key p) as [k|]; [|done].
  cbn [truthy_opt default]. destruct (truthy k); [|done].
  change (Datatypes.id k) with k. cbn [andb]. by destruct (s3_delete e k).
Qed.

(** X12: a delete request by the owner is answered 200 whatever S3
    does; the record is gone and fetching it answers 404; the other
    photos, the users and the albums are untouched, so an album that
    listed the photo still lists it. *)
Theorem delete_by_owner e user id st p :
  db_photos st !! id = Some p →
  Photo.uploadedBy p = user →
  (delete_photo e user id st).1 =
    {| status := 200; body := Message "Photo deleted successfully" |} ∧
  db_photos (delete_photo e user id st).2 = delete id (db_photos st) ∧
  get_photo id (delete_photo e user id st).2 =
    {| status := 404; body := Message "Photo not found" |} ∧
  db_albums (delete_photo e user id st).2 = db_albums st ∧
  db_users (delete_photo e user id st).2 = db_users st.
Proof.
  intros Hp Hu. unfold delete_photo, logActivity.
  rewrite Hp, Hu, N.eqb_refl. cbn [negb].
  destruct (log_put e); cbn [fst snd]; (split; [done|]);
    (split; [done|]); (split; [|done]); unfold get_photo;
    cbn [db_photos with_log with_photos]; by rewrite lookup_delete_eq.
Qed.

(** X13: the blobs of a deleted photo are removed as far as S3 lets
    them: when the delete of the original fails, the thumbnail is not
    attempted and the bucket stays as it was; when it succeeds, the
    original is gone, and the thumbnail is gone too if its delete
    succeeds; no other object is touched.  The record is deleted in
    every case. *)
Theorem delete_photo_blobs e user id st p :
  db_photos st !! id = Some p →
  Photo.uploadedBy p = user →
  truthy (Photo.s3Key p) = true →
  let bucket' := s3_bucket (delete_photo e user id st).2 in
  db_photos (delete_photo e user id st).2 !! id = None ∧
  (s3_delete e (Photo.s3Key p) = false → bucket' = s3_bucket st) ∧
  (s3_delete e (Photo.s3Key p) = true →
     bucket' !! Photo.s3Key p = None ∧
     ∀ k, Photo.thumbnailS3Key p = Some k → truthy k = true →
          if s3_delete e k then bucket' !! k = None
          else bucket' = delete (Photo.s3Key p) (s3_bucket st)) ∧
  (∀ k, k ≠ Photo.s3Key p → Some k ≠ Photo.thumbnailS3Key p →
        bucket' !! k = s3_bucket st !! k).
Proof.
  intros Hp Hu Hkey bucket'.
  assert (bucket' = delete_blobs e p (s3_bucket st)) as ->.
  { subst bucket'. by apply delete_photo_bucket. }
  split.
  { destruct (delete_by_owner_record e user id st p Hp Hu) as [_ ->].
    apply lookup_delete_eq. }
  rewrite delete_blobs_cases by done.
  destruct (s3_delete e (Photo.s3Key p)) eqn:Hd1; [|done].
  split; [done|]. split.
  - intros _. destruct (Photo.thumbnailS3Key p) as [k|] eqn:Hk.
    + split.
      * destruct (truthy k && s3_delete e k); [|apply lookup_delete_eq].
        destruct (decide (k = Photo.s3Key p)) as [->|Hne];
          [apply lookup_delete_eq|].
        rewrite lookup_delete_ne by done. apply lookup_delete_eq.
      * intros k' [= <-] ->. cbn [andb].
        destruct (s3_delete e k); [apply lookup_delete_eq|done].
    + split; [apply lookup_delete_eq|done].
  - intros k Hk1 Hk2. destruct (Photo.thumbnailS3Key p) as [k'|].
    + destruct (truthy k' && s3_delete e k');
        [|by rewrite lookup_delete_ne].
      rewrite !lookup_delete_ne; [done|done|]. intros ->. by apply Hk2.
    + by rewrite lookup_delete_ne.
Qed.

(** X14: a reprocess call that is not answered 200 changes nothing in
    the database: the photos, the albums, the users and the activity
    log are as before.  It is answered 404 for a missing photo and 403
    for another user's, and 500 when the invocation fails; in these
    cases the bucket is as before too.  The one call refused after the
    image processor has run is the one whose record [save] rejects: it
    is answered 500 with the bucket as the image processor left it. *)
Theorem reprocess_failure_keeps_state e user id st :
  (status (reprocess e user id st).1 ≠ 200%N →
   db_photos (reprocess e user id st).2 = db_photos st ∧
   db_albums (reprocess e user id st).2 = db_albums st ∧
   db_users (reprocess e user id st).2 = db_users st ∧
   activity_log (reprocess e user id st).2 = activity_log st ∧
   ((reprocess e user id st).2 = st ∨
    ∃ p k,
      db_photos st !! id = Some p ∧ Photo.uploadedBy p = user ∧
      processImage (invocation e) = Ok k ∧
      Photo.validate (Photo.set_thumbnailS3Key k p) = false ∧
      (reprocess e user id st).2 =
        with_bucket (invoked e (Photo.s3Key p) (s3_bucket st)) st)) ∧
  (db_photos st !! id = None → status (reprocess e user id st).1 = 404%N) ∧
  (∀ p, db_photos st !! id = Some p →
     (Photo.uploadedBy p ≠ user → status (reprocess e user id st).1 = 403%N) ∧
     (Photo.uploadedBy p = user →
      ∀ m, processImage (invocation e) = Throw m →
        reprocess e user id st =
          ({| status := 500; body := Message "Failed to reprocess photo" |},
           st))).
Proof.
  pose proof (reprocess_cases e user id st) as Hcases.
  destruct (db_photos st !! id) as [p|] eqn:Hp.
  2:{ rewrite Hcases. cbn [fst snd status].
      split; [intros _; by repeat (split; [done|]); left|].
      split; [done|]. done. }
  destruct (N.eqb (Photo.uploadedBy p) user) eqn:Hu; cbn [negb] in Hcases.
  - apply N.eqb_eq in Hu. cbv zeta in Hcases.
    destruct (processImage (invocation e)) as [k|m] eqn:Hk.
    + destruct (Photo.validate (Photo.set_thumbnailS3Key k p)) eqn:Hv;
        rewrite Hcases; cbn [fst snd status].
      * split; [done|]. split; [done|].
        intros ? [= <-]. split; [done|]. intros _ m' Hm'. done.
      * split.
        { intros _.
          cbn [db_photos db_albums db_users activity_log with_bucket].
          repeat (split; [done|]). right. by exists p, k. }
        split; [done|].
        intros ? [= <-]. split; [done|]. intros _ m' Hm'. done.
    + destruct Hcases as [Hrun Hst0]. rewrite Hst0 in Hrun. rewrite Hrun.
      cbn [fst snd status].
      split; [intros _; by repeat (split; [done|]); left|].
      split; [done|].
      intros ? [= <-]. split; [done|]. intros _ m' _. done.
  - apply N.eqb_neq in Hu. rewrite Hcases. cbn [fst snd status].
    split; [intros _; by repeat (split; [done|]); left|].
    split; [done|].
    intros ? [= <-]. split; [done|]. done.
Qed.

(** X15: what a reprocess call does to the state, whatever its answer.
    The albums, the users and the activity log are untouched.  Of the
    photos only the one named can change, and only in its thumbnail
    key; of the bucket only the object under the thumbnail key of that
    photo's original, which is not the original.  A call answered 404
    or 403, or whose invocation fails, changes nothing at all; a call
    answered 200 leaves the photo with the thumbnail key of the
    processing result, in the bucket as the image processor left it. *)
Theorem reprocess_frame e user id st :
  (db_albums (reprocess e user id st).2 = db_albums st ∧
   db_users (reprocess e user id st).2 = db_users st ∧
   activity_log (reprocess e user id st).2 = activity_log st) ∧
  (∀ i, i ≠ id →
     db_photos (reprocess e user id st).2 !! i = db_photos st !! i) ∧
  (∀ p, db_photos st !! id = Some p →
     (∃ k, db_photos (reprocess e user id st).2 !! id =
             Some (Photo.set_thumbnailS3Key k p)) ∧
     (∀ key, key ≠ getThumbnailKey (Photo.s3Key p) →
        s3_bucket (reprocess e user id st).2 !! key = s3_bucket st !! key) ∧
     s3_bucket (reprocess e user id st).2 !! Photo.s3Key p =
       s3_bucket st !! Photo.s3Key p) ∧
  (status (reprocess e user id st).1 = 404%N ∨
   status (reprocess e user id st).1 = 403%N ∨
   (∃ m, processImage (invocation e) = Throw m) →
   (reprocess e user id st).2 = st) ∧
  (status (reprocess e user id st).1 = 200%N →
   ∃ p k,
     db_photos st !! id = Some p ∧ processImage (invocation e) = Ok k ∧
     (reprocess e user id st).2 =
       with_photos (<[id := Photo.set_thumbnailS3Key k p]> (db_photos st))
         (with_bucket (invoked e (Photo.s3Key p) (s3_bucket st)) st)).
Proof.
  pose proof (reprocess_cases e user id st) as Hcases.
  assert (∀ p, Photo.set_thumbnailS3Key (Photo.thumbnailS3Key p) p = p)
    as Hsame by (by intros []).
  assert (∀ resp,
    reprocess e user id st = (resp, st) → status resp ≠ 200%N →
    (db_albums (reprocess e user id st).2 = db_albums st ∧
     db_users (reprocess e user id st).2 = db_users st ∧
     activity_log (reprocess e user id st).2 = activity_log st) ∧
    (∀ i, i ≠ id →
       db_photos (reprocess e user id st).2 !! i = db_photos st !! i) ∧
    (∀ p, db_photos st !! id = Some p →
       (∃ k, db_photos (reprocess e user id st).2 !! id =
               Some (Photo.set_thumbnailS3Key k p)) ∧
       (∀ key, key ≠ getThumbnailKey (Photo.s3Key p) →
          s3_bucket (reprocess e user id st).2 !! key = s3_bucket st !! key) ∧
       s3_bucket (reprocess e user id st).2 !! Photo.s3Key p =
         s3_bucket st !! Photo.s3Key p) ∧
    (status (reprocess e user id st).1 = 404%N ∨
     status (reprocess e user id st).1 = 403%N ∨
     (∃ m, processImage (invocation e) = Throw m) →
     (reprocess e user id st).2 = st) ∧
    (status (reprocess e user id st).1 = 200%N →
     ∃ p k,
       db_photos st !! id = Some p ∧ processImage (invocation e) = Ok k ∧
       (reprocess e user id st).2 =
         with_photos (<[id := Photo.set_thumbnailS3Key k p]> (db_photos st))
           (with_bucket (invoked e (Photo.s3Key p) (s3_bucket st)) st)))
    as Hunchanged.
  { intros resp Hrun Hresp. rewrite Hrun. cbn [fst snd].
    split; [done|]. split; [done|]. split; [|split; [done|done]].
    intros p Hp. split; [|done].
    exists (Photo.thumbnailS3Key p). by rewrite Hsame. }
  destruct (db_photos st !! id) as [p|] eqn:Hp;
    [|by apply (Hunchanged _ Hcases)].
  destruct (negb (N.eqb (Photo.uploadedBy p) user));
    [by apply (Hunchanged _ Hcases)|].
  cbv zeta in Hcases.
  destruct (processImage (invocation e)) as [k|m] eqn:Hk.
  2:{ destruct Hcases as [Hrun Hst0]. rewrite Hst0 in Hrun.
      by apply (Hunchanged _ Hrun). }
  clear Hunchanged.
  destruct (Photo.validate (Photo.set_thumbnailS3Key k p)); rewrite Hcases;
    cbn [fst snd status db_photos db_albums db_users activity_log s3_bucket
         with_photos with_bucket].
  - split; [done|]. split; [by intros i Hi; rewrite lookup_insert_ne|].
    split; [|split].
    + intros ? [= <-]. split; [|split].
      * exists k. apply lookup_insert_eq.
      * intros key Hkey. by apply invoked_lookup_ne.
      * apply invoked_original.
    + intros [?|[?|[? ?]]]; done.
    + intros _. by exists p, k.
  - split; [done|]. split; [done|]. split; [|split].
    + intros ? [= <-]. split; [|split].
      * exists (Photo.thumbnailS3Key p). by rewrite Hsame.
      * intros key Hkey. by apply invoked_lookup_ne.
      * apply invoked_original.
    + intros [?|[?|[? ?]]]; done.
    + done.
Qed.

(** X16: deleting, as its uploader, a photo whose upload was just
    answered 201 brings the photo collection back to what it was before
    the upload, and removes the original from the bucket when S3
    deletes it. *)
Theorem upload_then_delete e e' user r st :
  status (post_upload e user r st).1 = 201%N →
  status (delete_photo e' user (newId e) (post_upload e user r st).2).1
    = 200%N ∧
  db_photos (delete_photo e' user (newId e) (post_upload e user r st).2).2
    = db_photos st ∧
  (∀ part, req_file r = Some part →
     s3_delete e' (key_of e (originalname part)) = true →
     s3_bucket (delete_photo e' user (newId e) (post_upload e user r st).2).2
       !! key_of e (originalname part) = None).
Proof.
  intros Hstatus.
  destruct (post_upload_cases e user r st)
    as [(f & b & Hup & _ & Hv & Hn & _ & _ & Hphotos & Hbucket)
       |(Hne & _)]; [|done].
  apply upload_single_accepted in Hup as (part & Hf & _ & _ & _ & -> & ->).
  set (photo := new_photo e user r (stored_file e part) (delivered e)) in *.
  assert (db_photos (post_upload e user r st).2 !! newId e = Some photo) as Hp.
  { by rewrite Hphotos, lookup_insert_eq. }
  destruct (delete_by_owner_record e' user (newId e) _ photo Hp eq_refl)
    as (Hres & Hdel).
  split; [by rewrite Hres|]. split.
  - rewrite Hdel, Hphotos. by apply delete_insert_id.
  - intros part' Hf' Hd. rewrite Hf in Hf'. injection Hf' as <-.
    rewrite (delete_photo_bucket e' user (newId e) _ photo Hp eq_refl).
    rewrite delete_blobs_cases by done.
    change (Photo.s3Key photo) with (key_of e (originalname part)).
    rewrite Hd. destruct (Photo.thumbnailS3Key photo) as [k|];
      [|apply lookup_delete_eq].
    destruct (truthy k && s3_delete e' k); [|apply lookup_delete_eq].
    destruct (decide (k = key_of e (originalname part))) as [->|Hneq];
      [apply lookup_delete_eq|].
    rewrite lookup_delete_ne by done. apply lookup_delete_eq.
Qed.

(** *** Albums, continued *)

Lemma filter_idem {A} (P : A → Prop) `{!∀ x, Decision (P x)} (l : list A) :
  filter P (filter P l) = filter P l.
Proof.
  induction l as [|x l IH]; [done|]. rewrite filter_cons.
  destruct (decide (P x)); [|done]. rewrite filter_cons_True by done.
  by f_equal.
Qed.

Lemma filter_all {A} (P : A → Prop) `{!∀ x, Decision (P x)} (l : list A) :
  (∀ x, x ∈ l → P x) → filter P l = l.
Proof.
  induction l as [|x l IH]; intros Hl; [done|].
  rewrite filter_cons_True by (apply Hl; left). f_equal.
  apply IH. intros y Hy. apply Hl. by right.
Qed.

Lemma set_albums_same p : Photo.set_albums (Photo.albums p) p = p.
Proof. by destruct p. Qed.

Lemma set_membership_same a :
  Album.set_membership (Album.photos a) (Album.coverPhoto a) a = a.
Proof. by destruct a. Qed.

Lemma set_membership_same_after ps c a :
  Album.set_membership (Album.photos a) (Album.coverPhoto a)
    (Album.set_membership ps c a) = a.
Proof. by destruct a. Qed.

Lemma pull_album_nil a (m : gmap N Photo.t) : pull_album [] a m = m.
Proof.
  apply map_eq. intros i. rewrite pull_album_lookup. by destruct (m !! i).
Qed.

Lemma pull_album_idem ids a (m : gmap N Photo.t) :
  pull_album ids a (pull_album ids a m) = pull_album ids a m.
Proof.
  apply map_eq. intros i. rewrite !pull_album_lookup.
  destruct (m !! i) as [p|]; [|done]. cbn [fmap option_fmap option_map].
  f_equal. case_bool_decide; [|done]. destruct p. cbn.
  by rewrite filter_idem.
Qed.

Lemma with_same (st : State) :
  with_photos (db_photos st) (with_albums (db_albums st) st) = st.
Proof. by destruct st. Qed.

(** X17: the three routes that change an album answer 404 for a
    missing album and 403 to anyone but its creator, and leave the
    state as it was. *)
Theorem album_routes_authorization user id ids st :
  (db_albums st !! id = None →
   add_photos user id ids st = (album_not_found, st) ∧
   remove_photos user id ids st = (album_not_found, st) ∧
   delete_album user id st = (album_not_found, st)) ∧
  (∀ album, db_albums st !! id = Some album → Album.createdBy album ≠ user →
     status (add_photos user id ids st).1 = 403%N ∧
     (add_photos user id ids st).2 = st ∧
     status (remove_photos user id ids st).1 = 403%N ∧
     (remove_photos user id ids st).2 = st ∧
     status (delete_album user id st).1 = 403%N ∧
     (delete_album user id st).2 = st).
Proof.
  unfold add_photos, remove_photos, delete_album. split.
  - by intros ->.
  - intros album -> Hne. apply N.eqb_neq in Hne. by rewrite Hne.
Qed.

(** X18: on an empty list of ids, add-photos and remove-photos by the
    album's creator answer 200 and change nothing. *)
Theorem album_routes_empty_list user id st album :
  db_albums st !! id = Some album →
  Album.createdBy album = user →
  add_photos user id [] st =
    ({| status := 200; body := Message "Photos added to album successfully" |},
     st) ∧
  remove_photos user id [] st =
    ({| status := 200;
        body := Message "Photos removed from album successfully" |}, st).
Proof.
  intros Ha Hu. split.
  - unfold add_photos. rewrite Ha, Hu, N.eqb_refl. cbn [negb].
    assert (negb (Nat.eqb (size (find_owned user [] st)) (length (@nil N)))
            = false) as ->.
    { apply find_owned_check. split; [apply NoDup_nil_2|done]. }
    f_equal. cbn [db_photos with_albums].
    rewrite filter_nil, app_nil_r, push_album_nil.
    assert (match Album.coverPhoto album with
            | Some c => Some c
            | None => head []
            end = Album.coverPhoto album) as -> by (by destruct (Album.coverPhoto album)).
    rewrite set_membership_same, insert_id by done. apply with_same.
  - unfold remove_photos. rewrite Ha, Hu, N.eqb_refl. cbn [negb].
    f_equal. cbn [db_photos with_albums]. rewrite pull_album_nil.
    rewrite (filter_all (λ i, i ∉ @nil N)) by (intros; apply not_elem_of_nil).
    assert (match Album.coverPhoto album with
            | Some c => if bool_decide (c ∈ @nil N)
                        then head (Album.photos album) else Some c
            | None => None
            end = Album.coverPhoto album) as ->.
    { destruct (Album.coverPhoto album) as [c|]; [|done].
      rewrite bool_decide_eq_false_2; [done|apply not_elem_of_nil]. }
    rewrite set_membership_same, insert_id by done. apply with_same.
Qed.

Lemma add_photos_ok user id ids st album :
  db_albums st !! id = Some album →
  Album.createdBy album = user →
  NoDup ids → Forall (owns st user) ids →
  add_photos user id ids st =
    ({| status := 200; body := Message "Photos added to album successfully" |},
     with_photos
       (push_album (filter (λ i, i ∉ Album.photos album) ids) id (db_photos st))
       (with_albums (<[id := album_with ids album]> (db_albums st)) st)).
Proof.
  intros Ha Hu Hnd Hown.
  assert (negb (Nat.eqb (size (find_owned user ids st)) (length ids)) = false)
    as Hcheck by (by apply find_owned_check).
  unfold add_photos. by rewrite Ha, Hu, N.eqb_refl, Hcheck.
Qed.

Lemma remove_photos_ok user id ids st album :
  db_albums st !! id = Some album →
  Album.createdBy album = user →
  remove_photos user id ids st =
    ({| status := 200;
        body := Message "Photos removed from album successfully" |},
     with_photos (pull_album ids id (db_photos st))
       (with_albums (<[id := album_without ids album]> (db_albums st)) st)).
Proof.
  intros Ha Hu. unfold remove_photos. by rewrite Ha, Hu, N.eqb_refl.
Qed.

Lemma album_without_idem ids album :
  album_without ids (album_without ids album) = album_without ids album.
Proof.
  destruct album as [t d u ps c ca]. unfold album_without, Album.set_membership.
  cbn [Album.photos Album.coverPhoto Album.title Album.description
       Album.createdBy Album.createdAt].
  rewrite filter_idem. f_equal.
  destruct c as [c|]; [|done].
  case_bool_decide as Hc.
  - destruct (head _) as [x|] eqn:Hx; [|done].
    apply head_Some_elem_of, list_elem_of_filter in Hx as [Hx _].
    by rewrite bool_decide_eq_false_2.
  - by rewrite bool_decide_eq_false_2.
Qed.

Lemma album_without_with ids album :
  cover_ok album →
  (∀ i, i ∈ ids → i ∉ Album.photos album) →
  album_without ids (album_with ids album) = album.
Proof.
  intros Hcover Hnew. unfold cover_ok in Hcover.
  destruct album as [t d u ps c ca].
  unfold album_without, album_with, Album.set_membership.
  cbn [Album.photos Album.coverPhoto Album.title Album.description
       Album.createdBy Album.createdAt] in *.
  rewrite (filter_all (λ i, i ∉ ps)) by done.
  assert (filter (λ i, i ∉ ids) (ps ++ ids)%list = ps) as ->.
  { rewrite filter_app, filter_all, filter_none, app_nil_r; [done| |].
    - intros i Hi Hn. by apply Hn.
    - intros i Hi Hin. by apply (Hnew i). }
  f_equal. destruct c as [c|].
  - rewrite bool_decide_eq_false_2; [done|]. intros Hc. by apply (Hnew c).
  - subst ps. destruct ids as [|x ids']; [done|]. cbn [head].
    rewrite bool_decide_eq_true_2; [done|]. left.
Qed.

Lemma pull_push_album ids id (m : gmap N Photo.t) :
  (∀ i p, i ∈ ids → m !! i = Some p → id ∉ Photo.albums p) →
  pull_album ids id (push_album ids id m) = m.
Proof.
  intros Hfresh. apply map_eq. intros i.
  rewrite pull_album_lookup, push_album_lookup.
  destruct (m !! i) as [p|] eqn:Hp; [|done].
  cbn [fmap option_fmap option_map]. f_equal.
  case_bool_decide as Hi; [|done].
  pose proof (Hfresh i p Hi Hp) as Hid.
  destruct p. cbn in *. f_equal.
  rewrite filter_app, (filter_all (λ x, x ≠ id)), (filter_none (λ x, x ≠ id));
    [by rewrite app_nil_r| |].
  - intros x Hx Hne. apply list_elem_of_singleton in Hx as ->. by apply Hne.
  - by intros x Hx ->.
Qed.

(** X19: remove-photos is idempotent: a second call with the same list
    gives the same answer and leaves the state of the first. *)
Theorem remove_photos_idempotent user id ids st :
  remove_photos user id ids (remove_photos user id ids st).2 =
  remove_photos user id ids st.
Proof.
  destruct (db_albums st !! id) as [album|] eqn:Ha.
  2:{ unfold remove_photos at 2 3. rewrite Ha. cbn [snd].
      unfold remove_photos. by rewrite Ha. }
  destruct (decide (Album.createdBy album = user)) as [Hu|Hu].
  2:{ apply N.eqb_neq in Hu. unfold remove_photos at 2 3. rewrite Ha, Hu.
      cbn [negb snd]. unfold remove_photos. by rewrite Ha, Hu. }
  rewrite (remove_photos_ok user id ids st album) by done. cbn [snd].
  rewrite (remove_photos_ok user id ids _ (album_without ids album)).
  - f_equal. cbn [db_photos db_albums with_photos with_albums].
    rewrite pull_album_idem, album_without_idem, insert_insert_eq.
    done.
  - cbn [db_albums with_photos with_albums]. by rewrite lookup_insert_eq.
  - done.
Qed.

(** X20: for an album whose cover is in order, in a state where photos
    list only albums that contain them, adding photos the album does
    not have yet and removing them again restores the whole state. *)
Theorem add_then_remove user id ids st album :
  db_albums st !! id = Some album →
  Album.createdBy album = user →
  cover_ok album →
  back_references st →
  NoDup ids → Forall (owns st user) ids →
  (∀ i, i ∈ ids → i ∉ Album.photos album) →
  status (add_photos user id ids st).1 = 200%N ∧
  remove_photos user id ids (add_photos user id ids st).2 =
    ({| status := 200;
        body := Message "Photos removed from album successfully" |}, st).
Proof.
  intros Ha Hu Hcover Hback Hnd Hown Hnew.
  rewrite (add_photos_ok user id ids st album) by done. cbn [fst snd status].
  split; [done|].
  rewrite (remove_photos_ok user id ids _ (album_with ids album)).
  - f_equal. cbn [db_photos db_albums with_photos with_albums].
    rewrite (filter_all (λ i, i ∉ Album.photos album)) by done.
    rewrite album_without_with, insert_insert_eq, insert_id by done.
    rewrite pull_push_album; [by destruct st|].
    intros i p Hi Hp Hin.
    destruct (Hback i p id Hp Hin) as (album' & Ha' & Hmem).
    rewrite Ha in Ha'. injection Ha' as <-. by apply (Hnew i).
  - cbn [db_albums with_photos with_albums]. by rewrite lookup_insert_eq.
  - done.
Qed.

(** *** Invariants of the two collections *)

Lemma create_album_state e user r st :
  (create_album e user r st).2 = st ∨
  db_albums st !! newId e = None ∧
  (NoDup (default [] (ca_photoIds r)) ∧
   Forall (owns st user) (default [] (ca_photoIds r))) ∧
  (create_album e user r st).2 =
    with_photos
      (push_album (default [] (ca_photoIds r)) (newId e) (db_photos st))
      (with_albums (<[newId e := new_album e user r]> (db_albums st)) st).
Proof.
  unfold create_album.
  destruct (negb (title_valid (ca_title r))); [by left|].
  destruct (Nat.ltb 0 (length (default [] (ca_photoIds r)))) eqn:Hlen.
  - destruct (negb (Nat.eqb _ _)) eqn:Hcheck; [by left|]. cbn [andb].
    apply find_owned_check in Hcheck.
    destruct (negb (Album.validate _)); [by left|]. cbn [orb].
    case_bool_decide as Hid; [by left|].
    apply eq_None_not_Some in Hid. right. split; [done|]. split; [done|].
    by destruct (db_users _ !! user).
  - cbn [andb]. apply Nat.ltb_ge in Hlen.
    destruct (default [] (ca_photoIds r)) as [|x l] eqn:Hids;
      [|cbn in Hlen; lia].
    destruct (negb (Album.validate _)); [by left|]. cbn [orb].
    case_bool_decide as Hid; [by left|].
    apply eq_None_not_Some in Hid. right. split; [done|].
    split; [split; [apply NoDup_nil_2|done]|].
    rewrite push_album_nil. unfold new_album. rewrite Hids.
    destruct (db_users _ !! user); by destruct st.
Qed.

Lemma push_album_albums ids a (m : gmap N Photo.t) i p' x :
  push_album ids a m !! i = Some p' → x ∈ Photo.albums p' →
  ∃ p, m !! i = Some p ∧ (x ∈ Photo.albums p ∨ x = a ∧ i ∈ ids).
Proof.
  rewrite push_album_lookup. destruct (m !! i) as [p|]; [|done].
  cbn [fmap option_fmap option_map]. intros [= <-] Hx. exists p.
  split; [done|]. case_bool_decide as Hi; [|by left].
  destruct p. cbn in *. apply elem_of_app in Hx as [Hx|Hx]; [by left|].
  apply list_elem_of_singleton in Hx. by right.
Qed.

Lemma pull_album_albums ids a (m : gmap N Photo.t) i p' x :
  pull_album ids a m !! i = Some p' → x ∈ Photo.albums p' →
  ∃ p, m !! i = Some p ∧ x ∈ Photo.albums p ∧ (x = a → i ∉ ids).
Proof.
  rewrite pull_album_lookup. destruct (m !! i) as [p|]; [|done].
  cbn [fmap option_fmap option_map]. intros [= <-] Hx. exists p.
  split; [done|]. case_bool_decide as Hi.
  - destruct p. cbn in *. apply list_elem_of_filter in Hx as [Hne Hx].
    split; [done|]. by intros ->.
  - split; [done|]. by intros _.
Qed.

Lemma post_upload_photo e user r st i p' :
  db_photos (post_upload e user r st).2 !! i = Some p' →
  db_photos st !! i = Some p' ∨ Photo.albums p' = [].
Proof.
  destruct (post_upload_cases e user r st)
    as [(f & b & _ & _ & _ & _ & _ & _ & -> & _)|(_ & -> & _)];
    [|by left].
  destruct (decide (i = newId e)) as [->|Hne].
  - rewrite lookup_insert_eq. intros [= <-]. by right.
  - rewrite lookup_insert_ne by done. by left.
Qed.

(** X21: every route keeps the photo records consistent with the
    albums: if each album a photo lists exists and contains the photo
    before a request, the same holds after it. *)
Theorem run_back_references q st :
  back_references st → back_references (run q st).2.
Proof.
  intros Hback.
  destruct q as [e user r|id|e user id|e user id|e user r|user id ids
                |user id ids|user id]; cbn [run snd].
  - intros i p' a Hp' Ha. rewrite post_upload_albums.
    apply post_upload_photo in Hp' as [Hp|Hnil].
    + by apply (Hback i p').
    + rewrite Hnil in Ha. by apply elem_of_nil in Ha.
  - done.
  - intros i p' a Hp' Ha. rewrite delete_photo_albums.
    apply delete_photo_core in Hp'. by apply (Hback i p').
  - intros i p' a Hp' Ha. rewrite reprocess_albums.
    apply reprocess_core in Hp' as [Hp|(p & k & -> & Hp & _ & ->)].
    + by apply (Hback i p').
    + apply (Hback id p); [done|]. by destruct p.
  - destruct (create_album_state e user r st) as [->|(Hfresh & _ & ->)];
      [done|].
    intros i p' a Hp' Ha. cbn [db_photos db_albums with_photos with_albums] in *.
    destruct (push_album_albums _ _ _ _ _ _ Hp' Ha) as (p & Hp & [Hin|[-> Hi]]).
    + destruct (Hback i p a Hp Hin) as (album & Halbum & Hmem).
      exists album. split; [|done]. rewrite lookup_insert_ne; [done|].
      intros <-. by rewrite Hfresh in Halbum.
    + exists (new_album e user r). by rewrite lookup_insert_eq.
  - unfold add_photos.
    destruct (db_albums st !! id) as [album|] eqn:Halbum; [|done].
    destruct (negb (N.eqb (Album.createdBy album) user)); [done|].
    destruct (negb (Nat.eqb _ _)); [done|]. cbn [snd].
    intros i p' a Hp' Ha. cbn [db_photos db_albums with_photos with_albums] in *.
    destruct (push_album_albums _ _ _ _ _ _ Hp' Ha) as (p & Hp & [Hin|[-> Hi]]).
    + destruct (Hback i p a Hp Hin) as (album' & Halbum' & Hmem).
      destruct (decide (a = id)) as [->|Hne].
      * rewrite lookup_insert_eq. eexists. split; [done|].
        rewrite Halbum in Halbum'. injection Halbum' as <-.
        cbn [Album.photos Album.set_membership]. apply elem_of_app. by left.
      * rewrite lookup_insert_ne by done. by exists album'.
    + rewrite lookup_insert_eq. eexists. split; [done|].
      cbn [Album.photos Album.set_membership]. apply elem_of_app. by right.
  - unfold remove_photos.
    destruct (db_albums st !! id) as [album|] eqn:Halbum; [|done].
    destruct (negb (N.eqb (Album.createdBy album) user)); [done|]. cbn [snd].
    intros i p' a Hp' Ha. cbn [db_photos db_albums with_photos with_albums] in *.
    destruct (pull_album_albums _ _ _ _ _ _ Hp' Ha) as (p & Hp & Hin & Hi).
    destruct (Hback i p a Hp Hin) as (album' & Halbum' & Hmem).
    destruct (decide (a = id)) as [->|Hne].
    + rewrite lookup_insert_eq. eexists. split; [done|].
      rewrite Halbum in Halbum'. injection Halbum' as <-.
      cbn [Album.photos Album.set_membership]. apply list_elem_of_filter.
      split; [by apply Hi|done].
    + rewrite lookup_insert_ne by done. by exists album'.
  - unfold delete_album.
    destruct (db_albums st !! id) as [album|] eqn:Halbum; [|done].
    destruct (negb (N.eqb (Album.createdBy album) user)); [done|]. cbn [snd].
    intros i p' a Hp' Ha. cbn [db_photos db_albums with_photos with_albums] in *.
    destruct (pull_album_albums _ _ _ _ _ _ Hp' Ha) as (p & Hp & Hin & Hi).
    destruct (Hback i p a Hp Hin) as (album' & Halbum' & Hmem).
    destruct (decide (a = id)) as [->|Hne].
    + rewrite Halbum in Halbum'. injection Halbum' as <-. by destruct Hi.
    + exists album'. by rewrite lookup_delete_ne.
Qed.

Lemma cover_ok_with ids album : cover_ok album → cover_ok (album_with ids album).
Proof.
  unfold cover_ok, album_with. destruct album as [t d u ps c ca].
  cbn [Album.photos Album.coverPhoto Album.set_membership]. intros Hc.
  destruct c as [c|].
  - apply elem_of_app. by left.
  - subst ps. destruct (filter _ ids) as [|x l]; [done|]. left.
Qed.

Lemma cover_ok_without ids album :
  cover_ok album → cover_ok (album_without ids album).
Proof.
  unfold cover_ok, album_without. destruct album as [t d u ps c ca].
  cbn [Album.photos Album.coverPhoto Album.set_membership]. intros Hc.
  destruct c as [c|].
  - case_bool_decide as Hin.
    + destruct (filter _ ps) as [|x l]; [done|]. left.
    + by apply list_elem_of_filter.
  - by subst ps.
Qed.

Lemma cover_ok_new e user r : cover_ok (new_album e user r).
Proof.
  unfold cover_ok, new_album. cbn [Album.photos Album.coverPhoto].
  destruct (default [] (ca_photoIds r)) as [|x l]; [done|]. left.
Qed.

(** X22: every route keeps the covers in order: if before a request
    each album's cover is one of its photos, and only empty albums have
    none, the same holds after it. *)
Theorem run_cover_in_album q st :
  cover_in_album st → cover_in_album (run q st).2.
Proof.
  intros Hcover.
  destruct q as [e user r|id|e user id|e user id|e user r|user id ids
                |user id ids|user id]; cbn [run snd].
  - intros a album. rewrite post_upload_albums. apply Hcover.
  - done.
  - intros a album. rewrite delete_photo_albums. apply Hcover.
  - intros a album. rewrite reprocess_albums. apply Hcover.
  - destruct (create_album_state e user r st) as [->|(_ & _ & ->)]; [done|].
    intros a album. cbn [db_albums with_photos with_albums].
    destruct (decide (a = newId e)) as [->|Hne].
    + rewrite lookup_insert_eq. intros [= <-]. apply cover_ok_new.
    + rewrite lookup_insert_ne by done. apply Hcover.
  - unfold add_photos.
    destruct (db_albums st !! id) as [album|] eqn:Halbum; [|done].
    destruct (negb (N.eqb (Album.createdBy album) user)); [done|].
    destruct (negb (Nat.eqb _ _)); [done|]. cbn [snd].
    intros a album'. cbn [db_albums with_photos with_albums].
    destruct (decide (a = id)) as [->|Hne].
    + rewrite lookup_insert_eq. intros [= <-].
      apply (cover_ok_with ids), (Hcover id album Halbum).
    + rewrite lookup_insert_ne by done. apply Hcover.
  - unfold remove_photos.
    destruct (db_albums st !! id) as [album|] eqn:Halbum; [|done].
    destruct (negb (N.eqb (Album.createdBy album) user)); [done|]. cbn [snd].
    intros a album'. cbn [db_albums with_photos with_albums].
    destruct (decide (a = id)) as [->|Hne].
    + rewrite lookup_insert_eq. intros [= <-].
      apply (cover_ok_without ids), (Hcover id album Halbum).
    + rewrite lookup_insert_ne by done. apply Hcover.
  - unfold delete_album.
    destruct (db_albums st !! id) as [album|] eqn:Halbum; [|done].
    destruct (negb (N.eqb (Album.createdBy album) user)); [done|]. cbn [snd].
    intros a album'. cbn [db_albums with_photos with_albums].
    intros Hdel. apply lookup_delete_Some in Hdel as [_ Hdel].
    by apply (Hcover a).
Qed.

(** *** Albums: creation and deletion *)

(** X24: an album is stored exactly when the title is not empty, the
    listed photos are distinct and owned by the requester, the document
    passes the schema and its id is new; the listed photos then get the
    album's id, and the album holds them in the order given with the
    first as cover.  The answer is 201 when, besides, the requester's
    account can be populated; otherwise the state is unchanged. *)
Theorem create_album_created_iff e user r st :
  let ids := default [] (ca_photoIds r) in
  let accepted :=
    title_valid (ca_title r) = true ∧
    (NoDup ids ∧ Forall (owns st user) ids) ∧
    Album.validate (new_album e user r) = true ∧
    db_albums st !! newId e = None in
  (status (create_album e user r st).1 = 201%N ↔
   accepted ∧ is_Some (db_users st !! user)) ∧
  (accepted →
   (create_album e user r st).2 =
     with_photos (push_album ids (newId e) (db_photos st))
       (with_albums (<[newId e := new_album e user r]> (db_albums st)) st) ∧
   Album.photos (new_album e user r) = ids ∧
   Album.coverPhoto (new_album e user r) = head ids) ∧
  (¬ accepted → (create_album e user r st).2 = st).
Proof.
  intros ids accepted. subst accepted.
  assert (Nat.ltb 0 (length ids)
          && negb (Nat.eqb (size (find_owned user ids st)) (length ids)) = false
          ↔ NoDup ids ∧ Forall (owns st user) ids) as Hcheck.
  { destruct ids as [|x l] eqn:Hids.
    - cbn [length Nat.ltb Nat.leb andb]. split; [|done]. intros _.
      split; [apply NoDup_nil_2|done].
    - cbn [length Nat.ltb Nat.leb andb]. apply find_owned_check. }
  unfold create_album. cbv zeta.
  change (Album.mk _ _ _ _ _ _) with (new_album e user r). fold ids.
  destruct (title_valid (ca_title r)) eqn:Htitle; cbn [negb].
  2:{ cbn [fst snd status].
      split; [split; [done|by intros [(? & _) _]]|split; [|done]].
      by intros (? & _). }
  destruct (Nat.ltb 0 (length ids) && _) eqn:Hown.
  { assert (¬ (NoDup ids ∧ Forall (owns st user) ids)) as Hno.
    { intros Hyes. by apply Hcheck in Hyes. }
    cbn [fst snd status].
    split; [split; [done|by intros [(_ & ? & _) _]]|split; [|done]].
    by intros (_ & ? & _). }
  assert (NoDup ids ∧ Forall (owns st user) ids) as Hyes by (by apply Hcheck).
  clear Hcheck.
  destruct (Album.validate (new_album e user r)) eqn:Hvalid; cbn [negb orb].
  2:{ cbn [fst snd status].
      split; [split; [done|by intros [(_ & _ & ? & _) _]]|split; [|done]].
      by intros (_ & _ & ? & _). }
  case_bool_decide as Hid.
  { assert (db_albums st !! newId e ≠ None) as Hno by (by destruct Hid as [? ->]).
    cbn [fst snd status].
    split; [split; [done|by intros [(_ & _ & _ & ?) _]]|split; [|done]].
    by intros (_ & _ & _ & ?). }
  apply eq_None_not_Some in Hid.
  assert ((if Nat.ltb 0 (length ids)
           then with_photos
                  (push_album ids (newId e)
                     (db_photos (with_albums
                        (<[newId e := new_album e user r]> (db_albums st)) st)))
                  (with_albums
                     (<[newId e := new_album e user r]> (db_albums st)) st)
           else with_albums (<[newId e := new_album e user r]> (db_albums st)) st)
          = with_photos (push_album ids (newId e) (db_photos st))
              (with_albums (<[newId e := new_album e user r]> (db_albums st)) st))
    as ->.
  { destruct ids as [|x l]; [|done]. cbn [length Nat.ltb Nat.leb].
    rewrite push_album_nil. by destruct st. }
  cbn [db_users with_photos with_albums].
  destruct (db_users st !! user) as [username|] eqn:Huser; cbn [fst snd status].
  - split; [|split]; [split| |]; try done. by intros [].
  - split; [|split]; [split| |]; try done.
    + intros (_ & []). done.
    + by intros [].
Qed.

Lemma pull_album_dom ids a (m : gmap N Photo.t) :
  dom (pull_album ids a m) = dom m.
Proof.
  apply set_eq. intros i. rewrite !elem_of_dom, pull_album_lookup.
  apply fmap_is_Some.
Qed.

(** X25: when its creator deletes an album, the album is gone, no photo
    is deleted, and the photos of the album no longer list it; if the
    photo records were consistent with the albums before, no photo at
    all lists the deleted album. *)
Theorem delete_album_by_creator user id st album :
  db_albums st !! id = Some album →
  Album.createdBy album = user →
  (delete_album user id st).1 =
    {| status := 200; body := Message "Album deleted successfully" |} ∧
  db_albums (delete_album user id st).2 = delete id (db_albums st) ∧
  dom (db_photos (delete_album user id st).2) = dom (db_photos st) ∧
  (∀ i p', db_photos (delete_album user id st).2 !! i = Some p' →
           i ∈ Album.photos album → id ∉ Photo.albums p') ∧
  (back_references st →
   ∀ i p', db_photos (delete_album user id st).2 !! i = Some p' →
           id ∉ Photo.albums p').
Proof.
  intros Ha Hu. unfold delete_album. rewrite Ha, Hu, N.eqb_refl.
  cbn [negb fst snd db_albums db_photos with_photos with_albums].
  split; [done|]. split; [done|]. split; [apply pull_album_dom|].
  assert (∀ i p', pull_album (Album.photos album) id (db_photos st) !! i
                  = Some p' →
                  id ∈ Photo.albums p' →
                  ∃ p, db_photos st !! i = Some p ∧ id ∈ Photo.albums p ∧
                       i ∉ Album.photos album) as Hpull.
  { intros i p' Hp' Hin.
    destruct (pull_album_albums _ _ _ _ _ _ Hp' Hin) as (p & Hp & Hin' & Hi).
    exists p. split; [done|]. split; [done|]. by apply Hi. }
  split.
  - intros i p' Hp' Hi Hin.
    by destruct (Hpull i p' Hp' Hin) as (p & _ & _ & Hno).
  - intros Hback i p' Hp' Hin.
    destruct (Hpull i p' Hp' Hin) as (p & Hp & Hin' & Hno).
    destruct (Hback i p id Hp Hin') as (album' & Ha' & Hmem).
    rewrite Ha in Ha'. by injection Ha' as <-.
Qed.

(** *** Photos: the requester's list *)

#[local] Instance newest_first_total : Total newest_first.
Proof. intros x y. unfold newest_first. lia. Qed.

#[local] Instance newest_first_trans : Transitive newest_first.
Proof. intros x y z. unfold newest_first. lia. Qed.

(** X26: for a requester with an account, my-photos answers 200 with
    exactly the requester's photos, each once, every one under the
    requester's name, the newest first. *)
Theorem my_photos_listing user st username :
  db_users st !! user = Some username →
  list_status (my_photos user st) = 200%N ∧
  (∀ v, v ∈ listed (my_photos user st) ↔
        ∃ p, db_photos st !! v_id v = Some p ∧ Photo.uploadedBy p = user ∧
             v = photo_view (v_id v) p username) ∧
  NoDup (v_id <$> listed (my_photos user st)) ∧
  StronglySorted (λ v w, (v_createdAt w ≤ v_createdAt v)%N)
    (listed (my_photos user st)).
Proof.
  intros Hu. unfold my_photos. rewrite Hu.
  set (m := filter (λ x : N * Photo.t, Photo.uploadedBy x.2 = user)
              (db_photos st)).
  assert (merge_sort newest_first (map_to_list m) ≡ₚ map_to_list m) as Hperm
    by apply merge_sort_Permutation.
  assert (list_status
            match merge_sort newest_first (map_to_list m) with
            | [] | _ =>
                {| list_status := 200;
                   listed := (λ x, photo_view x.1 x.2 username)
                             <$> merge_sort newest_first (map_to_list m) |}
            end = 200%N) as Hstatus by (by destruct (merge_sort _ _)).
  assert (listed
            match merge_sort newest_first (map_to_list m) with
            | [] | _ =>
                {| list_status := 200;
                   listed := (λ x, photo_view x.1 x.2 username)
                             <$> merge_sort newest_first (map_to_list m) |}
            end = (λ x, photo_view x.1 x.2 username)
                  <$> merge_sort newest_first (map_to_list m)) as Hlisted
    by (by destruct (merge_sort _ _)).
  split; [exact Hstatus|]. rewrite Hlisted. clear Hstatus Hlisted.
  split; [|split].
  - intros v. rewrite list_elem_of_fmap. split.
    + intros ([i p] & -> & Hin). rewrite Hperm in Hin.
      apply elem_of_map_to_list in Hin. unfold m in Hin.
      apply map_lookup_filter_Some in Hin as [Hp Hown]. by exists p.
    + intros (p & Hp & Hown & Hv). exists (v_id v, p). split; [done|].
      rewrite Hperm. apply elem_of_map_to_list. unfold m.
      by apply map_lookup_filter_Some.
  - rewrite <- list_fmap_compose.
    assert (v_id ∘ (λ x : N * Photo.t, photo_view x.1 x.2 username) = fst)
      as -> by done.
    rewrite Hperm. apply NoDup_fst_map_to_list.
  - apply (StronglySorted_fmap _ newest_first); [done|].
    apply StronglySorted_merge_sort; apply _.
Qed.

(** *** What the routes learn of the derivation *)

(** X29: the routes never learn the thumbnail key.  The image processor
    returns [{ statusCode, body }], and [processImage] looks for
    [errorMessage] and [thumbnailKey] at the top of that value, where
    there is neither: whenever the invocation completes, whatever the
    handler answered, [processImage] resolves without a thumbnail key.
    So an upload answered 201 stores [thumbnailS3Key] null and a
    reprocess call answered 200 sets it to null, also when the handler
    has derived the thumbnail and stored it. *)
Theorem thumbnail_key_never_delivered e :
  (∀ k, processImage (invocation e) = Ok k → k = None) ∧
  (∀ upload_ok, lambda e = Completed upload_ok →
     processImage (invocation e) = Ok None) ∧
  (∀ user r st, status (post_upload e user r st).1 = 201%N →
     ∃ p, db_photos (post_upload e user r st).2 !! newId e = Some p ∧
          Photo.thumbnailS3Key p = None) ∧
  (∀ user id st, status (reprocess e user id st).1 = 200%N →
     (reprocess e user id st).1 =
       {| status := 200;
          body := Reprocessed "Photo reprocessed successfully" None |} ∧
     ∃ p, db_photos (reprocess e user id st).2 !! id = Some p ∧
          Photo.thumbnailS3Key p = None).
Proof.
  assert (delivered e = None) as Hnone.
  { unfold delivered.
    destruct (processImage (invocation e)) as [k|] eqn:Hk; [|done].
    by apply invocation_result in Hk. }
  split; [apply invocation_result|]. split; [|split].
  - intros ok Hrun. unfold invocation. by rewrite Hrun.
  - intros user r st Hstatus.
    destruct (post_upload_cases e user r st)
      as [(f & b & _ & _ & _ & _ & _ & _ & Hphotos & _)|[Hno _]]; [|done].
    rewrite Hphotos, lookup_insert_eq, Hnone. by eexists.
  - intros user id st Hstatus.
    pose proof (reprocess_cases e user id st) as Hcases.
    destruct (db_photos st !! id) as [p|];
      [|by rewrite Hcases in Hstatus].
    destruct (negb (N.eqb (Photo.uploadedBy p) user));
      [by rewrite Hcases in Hstatus|].
    cbv zeta in Hcases.
    destruct (processImage (invocation e)) as [k|m] eqn:Hk;
      [|destruct Hcases as [Hcases _]; by rewrite Hcases in Hstatus].
    apply invocation_result in Hk as ->.
    destruct (Photo.validate (Photo.set_thumbnailS3Key None p));
      [|by rewrite Hcases in Hstatus].
    rewrite Hcases. cbn [fst snd db_photos with_photos]. split; [done|].
    rewrite lookup_insert_eq. by eexists.
Qed.

(** *** The local-disk variant *)

Lemma local_paths_differ name :
  "uploads/thumbnails/" ++ "thumb_" ++ name ≠ "uploads/" ++ name.
Proof.
  intros Heq. apply (f_equal String.length) in Heq.
  rewrite !string_length_app in Heq. cbn in Heq. lia.
Qed.

(** X27: with the Photo schema of the sources the local-disk upload
    route saves nothing.  The document it builds has neither [s3Key] nor
    [s3Location], which the schema requires, so [save] rejects it: no
    request is answered 201 and the photo collection never changes.  A
    request that got as far as [save] is answered 500: its original is
    unlinked, and the thumbnail just generated stays on the disk. *)
Theorem local_upload_saves_nothing e user r st :
  status (local_post_upload e user r st).1 ≠ 201%N ∧
  local_photos (local_post_upload e user r st).2 = local_photos st ∧
  (∀ name part d out,
     title_valid (req_title r) = true →
     local_upload_single e (req_file r) (disk st)
       = (Ok (Some (name, part)), d) →
     sharp_output [resize 300 300 "cover" "center"; jpeg 80] (content part)
       = Ok out →
     local_post_upload e user r st =
       ({| status := 500; body := Message "Server error" |},
        {| local_photos := local_photos st;
           disk := delete ("uploads/" ++ name)
                     (<["uploads/thumbnails/" ++ "thumb_" ++ name := out]> d)
        |}) ∧
     disk (local_post_upload e user r st).2
       !! ("uploads/thumbnails/" ++ "thumb_" ++ name) = Some out ∧
     disk (local_post_upload e user r st).2 !! ("uploads/" ++ name) = None).
Proof.
  assert (∀ title description filename f path,
            Photo.validate
              (local_photo e user title description filename f path) = false)
    as Hschema.
  { intros. unfold Photo.validate, local_photo.
    cbn [Photo.s3Key Photo.s3Location truthy]. by rewrite !andb_false_r. }
  split; [|split].
  - unfold local_post_upload.
    destruct (local_upload_single e (req_file r) (disk st)) as [[file|m] d];
      [|done].
    unfold local_upload_handler.
    destruct (negb (title_valid (req_title r))); [done|].
    destruct file as [[name part]|]; [|done].
    destruct (generateThumbnail_local _ _ _) as [[] d1]; cbn [negb];
      [|done].
    by rewrite Hschema.
  - unfold local_post_upload.
    destruct (local_upload_single e (req_file r) (disk st)) as [[file|m] d];
      [|done].
    unfold local_upload_handler.
    destruct (negb (title_valid (req_title r))); [done|].
    destruct file as [[name part]|]; [|done].
    destruct (generateThumbnail_local _ _ _) as [[] d1]; cbn [negb];
      [|done].
    by rewrite Hschema.
  - intros name part d out Ht Hup Hout.
    unfold local_post_upload. rewrite Hup.
    apply local_upload_single_stored in Hup as (_ & _ & ->).
    unfold local_upload_handler. rewrite Ht. cbn [negb].
    unfold generateThumbnail_local. cbn [disk local_photos].
    rewrite lookup_insert_eq. cbn [bindE]. rewrite Hout. cbn [negb].
    rewrite Hschema. cbn [andb fst snd disk].
    split; [done|]. split; [|apply lookup_delete_eq].
    rewrite lookup_delete_ne by (intros Heq; by apply (local_paths_differ name)).
    apply lookup_insert_eq.
Qed.

(** X28: in the local-disk variant, an upload whose title is empty is
    answered 400 after multer has written the file: the file stays on
    the disk, and no photo is recorded. *)
Theorem local_upload_rejected_title_keeps_file e user r st part :
  req_file r = Some part →
  fileFilter (part_mimetype part) = true →
  (part_size part ≤ fileSize)%N →
  title_valid (req_title r) = false →
  local_post_upload e user r st =
    ({| status := 400; body := Errors |},
     {| local_photos := local_photos st;
        disk := <["uploads/" ++ local_filename e (originalname part)
                  := content part]> (disk st) |}).
Proof.
  intros Hfile Hmime Hsize Htitle.
  unfold local_post_upload, local_upload_single.
  rewrite Hfile, Hmime. cbn [negb].
  apply N.ltb_ge in Hsize. rewrite Hsize.
  unfold local_upload_handler. by rewrite Htitle.
Qed.

(** *** The invariants, checked by evaluation *)

Lemma back_references_checked st :
  back_references_check st = true → back_references st.
Proof.
  unfold back_references_check. intros Hcheck i p a Hp Ha.
  apply bool_decide_eq_true in Hcheck.
  specialize (Hcheck i p Hp). cbn beta in Hcheck.
  rewrite forallb_forall in Hcheck.
  apply list_elem_of_In, Hcheck in Ha. unfold listed_in in Ha.
  destruct (db_albums st !! a) as [album|]; [|done].
  exists album. split; [done|]. by apply bool_decide_eq_true in Ha.
Qed.

Lemma cover_ok_checked album : cover_ok_check album = true → cover_ok album.
Proof.
  unfold cover_ok_check, cover_ok.
  destruct (Album.coverPhoto album); apply bool_decide_eq_true.
Qed.

Lemma cover_in_album_checked st :
  cover_in_album_check st = true → cover_in_album st.
Proof.
  unfold cover_in_album_check. intros Hcheck a album Ha.
  apply bool_decide_eq_true in Hcheck.
  apply cover_ok_checked, (Hcheck a album Ha).
Qed.

Lemma albums_nodup_checked st : albums_nodup_check st = true → albums_nodup st.
Proof.
  unfold albums_nodup_check. intros Hcheck a album Ha.
  apply bool_decide_eq_true in Hcheck. apply (Hcheck a album Ha).
Qed.

End Server.

(** ** A deployment and a few requests, for the examples *)

(** Image bytes for the examples: the leading bytes of a buffer, and
    the number of zero bytes that follow them. *)
Record Bytes := { leading : list Byte.byte; zeros : N }.

Definition byte_length (b : Bytes) : N :=
  N.of_nat (length (leading b)) + zeros b.

Definition bytes (l : list Byte.byte) : Bytes := {| leading := l; zeros := 0 |}.

(** [buffer.subarray(0, n)] *)
Definition first_bytes (n : N) (b : Bytes) : Bytes :=
  if N.leb (byte_length b) n then b
  else if N.leb n (N.of_nat (length (leading b)))
  then {| leading := take (N.to_nat n) (leading b); zeros := 0 |}
  else {| leading := leading b; zeros := n - N.of_nat (length (leading b)) |}.

(** [path.extname] of Node, POSIX flavour: the extension of the last
    part of the path, from its last dot on; none when that part has no
    dot, begins with its only dot, or is "..". *)
Fixpoint skip_slashes (l : list ascii) : list ascii :=
  match l with
  | c :: r => if Ascii.eqb c "/" then skip_slashes r else l
  | [] => []
  end.

Fixpoint until_slash (l : list ascii) : list ascii :=
  match l with
  | c :: r => if Ascii.eqb c "/" then [] else c :: until_slash r
  | [] => []
  end.

(** On the reversed base name: the characters after the last dot, and
    those before it. *)
Fixpoint at_last_dot (l : list ascii) : option (list ascii * list ascii) :=
  match l with
  | [] => None
  | c :: r =>
      if Ascii.eqb c "."
      then Some ([], r)
      else match at_last_dot r with
           | Some (after, before) => Some (c :: after, before)
           | None => None
           end
  end.

Definition extname_posix (path : string) : string :=
  let base := until_slash (skip_slashes (rev (list_ascii_of_string path))) in
  match at_last_dot base with
  | None => ""
  | Some (after, before) =>
      match before, after with
      | [], _ => ""
      | ["."%char], [] => ""
      | _, _ => string_of_list_ascii ("."%char :: rev after)
      end
  end.

(** A stand-in for sharp: an empty input does not decode; any other
    input is taken for a 1x1 PNG and comes out of every pipeline as it
    went in. *)
Definition decode (b : Bytes) : Exn ImageMetadata :=
  if N.eqb (byte_length b) 0 then Throw "Input buffer is empty"
  else Ok {| meta_width := 1; meta_height := 1; meta_format := "png";
             meta_size := None |}.

Definition render (ops : list SharpOp) (b : Bytes) : Exn Bytes :=
  if N.eqb (byte_length b) 0 then Throw "Input buffer is empty" else Ok b.

(** A title typed in ASCII. *)
Definition text (s : string) : Text := N_of_ascii <$> list_ascii_of_string s.

Definition submit : Env → ObjectId → UploadRequest → State → Response * State :=
  post_upload (Buffer := Bytes) extname_posix false (Some "pixelboard-uploads")
    None decode render first_bytes false.

Definition serve : Request → State → Response * State :=
  run (Buffer := Bytes) extname_posix false (Some "pixelboard-uploads") None
    decode render first_bytes false.

Definition rerun : Env → ObjectId → ObjectId → State → Response * State :=
  reprocess (Buffer := Bytes) (Some "pixelboard-uploads") decode render.

Definition alice : ObjectId := 1.
Definition bob : ObjectId := 2.

Definition world0 : State (Buffer := Bytes) :=
  {| db_photos := ∅; db_albums := ∅;
     db_users := {[ alice := "alice"; bob := "bob" ]};
     s3_bucket := ∅; activity_log := [] |}.

(** Every sample image is three bytes long, and that is the size
    multer-s3 reports. *)
Definition env_at (t : N) (id : ObjectId) (run : LambdaRun) : Env :=
  {| now := t; uuid := "3f2a"; newId := id; s3_put := true;
     reported_size := 3; s3_delete := λ _, true; lambda := run;
     log_put := true |}.

Definition image (name : string) (b : Bytes) : FilePart :=
  {| originalname := name; part_mimetype := "image/jpeg";
     part_size := byte_length b; content := b |}.

Definition titled (title : Text) (part : FilePart (Buffer := Bytes))
    : UploadRequest :=
  {| req_title := title; req_description := None; req_file := Some part |}.

Definition sunset_bytes : Bytes := bytes [Byte.xff; Byte.xd8; Byte.xff].

Definition sunset : UploadRequest :=
  titled (text "Sunset") (image "sunset.jpg" sunset_bytes).

Definition sunset_key : string := "photos/1700000000000-3f2a.jpg".
Definition sunset_thumbnail : string :=
  "photos/thumbnails/thumb_1700000000000-3f2a.jpg".

(** The image processor ran to its end and stored its thumbnail. *)
Definition derived : LambdaRun := Completed true.

(** The function was stopped by the Lambda runtime. *)
Definition stopped : LambdaRun :=
  FunctionError "Task timed out after 3.00 seconds".

(** Alice has uploaded "Sunset" (photo 10, its thumbnail derived), Bob
    "Harbour" (photo 20), and Alice has put photo 10 into album 5. *)
Definition world1 : State :=
  (submit (env_at 1700000000000 10 derived) alice sunset world0).2.

Definition world2 : State :=
  (submit (env_at 1700000000001 20 stopped) bob
     (titled (text "Harbour")
        (image "harbour.jpg" (bytes [Byte.xff; Byte.xd8; Byte.xfe])))
     world1).2.

Definition world3 : State :=
  (create_album false (env_at 1700000000002 5 derived) alice
     {| ca_title := text "Trip"; ca_description := None;
        ca_photoIds := Some [10%N] |} world2).2.

(** Then Alice uploads "Dunes" (photo 30) and creates the empty album 6. *)
Definition world4 : State :=
  (submit (env_at 1700000000003 30 stopped) alice
     (titled (text "Dunes")
        (image "dunes.jpg" (bytes [Byte.xff; Byte.xd8; Byte.xfd])))
     world3).2.

Definition world5 : State :=
  (create_album false (env_at 1700000000004 6 derived) alice
     {| ca_title := text "Later"; ca_description := None; ca_photoIds := None |}
     world4).2.

Definition timed_out : Env := env_at 1700000000000 10 stopped.

Definition thumbnailed : Env := env_at 1700000000000 10 derived.

Definition again : Env := env_at 1700000000100 0 derived.

Definition untitled : UploadRequest := titled [] (image "sunset.jpg" sunset_bytes).


(** A title of 101 letters. *)
Definition lengthy : UploadRequest :=
  titled (repeat 97%N 101) (image "sunset.jpg" sunset_bytes).








(** A file of zero bytes declared as an image. *)
Definition hollow : UploadRequest :=
  titled (text "Sunset") (image "sunset.jpg" (bytes [])).

Definition local_env : LocalEnv :=
  {| l_now := 1700000000000; l_random := 42; l_newId := 10 |}.

Definition local_world : LocalState (Buffer := Bytes) :=
  {| local_photos := ∅; disk := ∅ |}.

(** Photo 10 as it stands once album 5 exists. *)
Definition sunset_photo : Photo.t :=
  Photo.mk (text "Sunset") [] sunset_key "sunset.jpg" "image/jpeg" 3 None
    sunset_key
    ("https://pixelboard-uploads.s3.us-east-1.amazonaws.com/" ++ sunset_key)
    None pending None alice [5%N] 0 1700000000000.

Definition trip : Album.t :=
  Album.mk (text "Trip") [] alice [10%N] (Some 10%N) 1700000000002.

(** Album 6 as it is created. *)
Definition later : Album.t :=
  Album.mk (text "Later") [] alice [] None 1700000000004.

Definition sunset_event : Event :=
  payload (Some "pixelboard-uploads") sunset_key route_options.

(** The state after the first upload, with the title of photo 10 as a
    release without [maxlength] could have stored it. *)
Definition overlong_world : State :=
  with_photos
    (<[10%N := Photo.mk (repeat 97%N 101) [] sunset_key "sunset.jpg"
                 "image/jpeg" 3 None sunset_key
                 ("https://pixelboard-uploads.s3.us-east-1.amazonaws.com/"
                    ++ sunset_key)
                 None pending None alice [] 0 1700000000000]> ∅)
    (with_bucket (delete sunset_thumbnail (s3_bucket world1)) world1).

(** ** Examples *)

(** *** Upload *)

(** C1, counterexample.  In the local-disk variant a zero-byte "image"
    passes the input constraints and is written to disk; sharp cannot
    decode it; the request is answered 500, the original is unlinked
    and no record is saved.  In the S3 variant a title of 101 letters
    passes the input constraints too, the file is stored and the
    invocation fails: [save] refuses the document and the request is
    answered 500, with no record; so is an upload whose new id the
    database refuses. *)
Lemma local_upload_aborts_on_failed_thumbnail :
  (¬ fails_validation hollow ∧
   (local_upload_single extname_posix local_env (req_file hollow)
      (disk local_world)).2 !! "uploads/1700000000000-42.jpg"
     = Some (bytes []) ∧
   render [resize 300 300 "cover" "center"; jpeg 80] (bytes []) =
     Throw "Input buffer is empty" ∧
   (local_post_upload extname_posix render false local_env alice hollow
      local_world).1 =
     {| status := 500; body := Message "Failed to generate thumbnail" |} ∧
   local_photos
     (local_post_upload extname_posix render false local_env alice hollow
        local_world).2 = ∅ ∧
   disk
     (local_post_upload extname_posix render false local_env alice hollow
        local_world).2 = ∅) ∧
  (¬ fails_validation lengthy ∧
   title_valid false (req_title lengthy) = true ∧
   is_Some (s3_bucket (submit timed_out alice lengthy world0).2 !! sunset_key) ∧
   processImage (invocation timed_out) =
     Throw "Failed to process image: Task timed out after 3.00 seconds" ∧
   (submit timed_out alice lengthy world0).1 =
     {| status := 500; body := Message "Server error" |} ∧
   db_photos (submit timed_out alice lengthy world0).2 = ∅) ∧
  (¬ fails_validation sunset ∧
   is_Some (db_photos world1 !! 10%N) ∧
   (submit (env_at 1700000000005 10 stopped) bob sunset world1).1 =
     {| status := 500; body := Message "Server error" |} ∧
   db_photos (submit (env_at 1700000000005 10 stopped) bob sunset world1).2 =
     db_photos world1).
Proof.
  assert (∀ title part,
            trim title ≠ [] → fileFilter (part_mimetype part) = true →
            (part_size part ≤ fileSize)%N →
            ¬ fails_validation (titled title part)) as Hpasses.
  { intros title part Ht Hm Hs [Hblank|(p & [= <-] & [Hf|Hlarge])].
    - by apply Ht.
    - by rewrite Hm in Hf.
    - by apply N.lt_nge in Hlarge. }
  split; [|split].
  - split; [by apply Hpasses|].
    repeat split; vm_compute; reflexivity.
  - split; [by apply Hpasses|].
    split; [vm_compute; reflexivity|].
    split; [vm_compute; by eexists|].
    repeat split; vm_compute; reflexivity.
  - split; [by apply Hpasses|].
    split; [vm_compute; by eexists|].
    split; vm_compute; reflexivity.
Qed.

Lemma upload_survives_failed_derivation_witness :
  ((submit timed_out alice sunset world0).1 =
     {| status := 201;
        body := PhotoBody (Some "Photo uploaded successfully")
          {| v_id := 10; v_title := text "Sunset"; v_description := [];
             v_s3Location :=
               "https://pixelboard-uploads.s3.us-east-1.amazonaws.com/"
                 ++ sunset_key;
             v_thumbnailS3Key := None; v_uploadedBy := None;
             v_createdAt := 1700000000000 |} |} ∧
   Photo.thumbnailS3Key
     <$> db_photos (submit timed_out alice sunset world0).2 !! 10%N
     = Some None) ∧
  local_post_upload extname_posix render false local_env alice hollow
    local_world =
    ({| status := 500; body := Message "Failed to generate thumbnail" |},
     local_world).
Proof.
  destruct (upload_survives_failed_derivation extname_posix false
              (Some "pixelboard-uploads") None decode render first_bytes false)
    as [Hs3 Hlocal].
  split.
  - destruct (Hs3 timed_out alice sunset
                (stored_file extname_posix (Some "pixelboard-uploads") None
                   timed_out (image "sunset.jpg" sunset_bytes))
                {[ sunset_key := stored_object (image "sunset.jpg" sunset_bytes) ]}
                world0)
      as (Hres & Hrec & _).
    + reflexivity.
    + vm_compute. reflexivity.
    + exact I.
    + reflexivity.
    + reflexivity.
    + split.
      * exact Hres.
      * etransitivity; [exact (f_equal (fmap Photo.thumbnailS3Key) Hrec)|].
        reflexivity.
  - destruct (Hlocal local_env alice hollow "1700000000000-42.jpg"
                (image "sunset.jpg" (bytes []))
                {[ "uploads/1700000000000-42.jpg" := bytes [] ]}
                local_world "Input buffer is empty")
      as [Hres _].
    + reflexivity.
    + vm_compute. reflexivity.
    + reflexivity.
    + etransitivity; [exact Hres|]. vm_compute. reflexivity.
Defined.



(** *** Reprocessing *)



(** A reprocess call refused after the image processor has run: the
    title of photo 10 exceeds what the schema allows, [save] rejects
    the record, and the thumbnail the image processor has stored is in
    the bucket. *)
Lemma reprocess_refused_after_derivation :
  s3_bucket overlong_world !! sunset_thumbnail = None ∧
  (rerun again alice 10 overlong_world).1 =
    {| status := 500; body := Message "Failed to reprocess photo" |} ∧
  db_photos (rerun again alice 10 overlong_world).2 = db_photos overlong_world ∧
  is_Some (s3_bucket (rerun again alice 10 overlong_world).2 !! sunset_thumbnail).
Proof.
  split; [vm_compute; reflexivity|].
  split; [vm_compute; reflexivity|].
  split; [vm_compute; reflexivity|vm_compute; by eexists].
Qed.

(** *** Albums *)

Lemma add_photos_idempotent_witness :
  add_photos alice 6 [10; 30]%N (add_photos alice 6 [10; 30]%N world5).2 =
    ({| status := 200; body := Message "Photos added to album successfully" |},
     (add_photos alice 6 [10; 30]%N world5).2) ∧
  ∃ album1,
    db_albums (add_photos alice 6 [10; 30]%N world5).2 !! 6%N = Some album1 ∧
    Album.photos album1 = [10; 30]%N ∧
    Album.coverPhoto album1 = Some 10%N.
Proof.
  destruct (add_photos_idempotent alice 6 [10; 30]%N world5 later)
    as (_ & Htwice & album1 & Ha & Hphotos & _ & _ & Hcover).
  - reflexivity.
  - reflexivity.
  - apply NoDup_nil_2.
  - compute_done.
  - compute_done.
  - split; [exact Htwice|]. exists album1. split; [exact Ha|].
    split; [exact Hphotos|]. by destruct Hcover as [-> _].
Defined.

(** C5, counterexample: album 5 is Alice's and holds her photo 10;
    photo 20 is Bob's.  Alice's remove-photos call listing both is
    answered 200 and empties the album. *)
Lemma remove_photos_ignores_ownership :
  ¬ Forall (owns world3 alice) [10; 20]%N ∧
  Album.photos <$> db_albums world3 !! 5%N = Some [10%N] ∧
  status (remove_photos alice 5 [10; 20]%N world3).1 = 200%N ∧
  client_error (remove_photos alice 5 [10; 20]%N world3).1 = false ∧
  Album.photos <$> db_albums (remove_photos alice 5 [10; 20]%N world3).2 !! 5%N
    = Some [].
Proof.
  repeat split; try (vm_compute; reflexivity). compute_done.
Qed.

Lemma unowned_photo_rejected_witness :
  client_error (add_photos alice 5 [10; 20]%N world3).1 = true ∧
  (add_photos alice 5 [10; 20]%N world3).2 = world3.
Proof.
  destruct (unowned_photo_rejected false alice [10; 20]%N world3) as [Hadd _].
  - compute_done.
  - exact (Hadd 5%N).
Defined.

Lemma remove_photos_cover_witness :
  status (remove_photos alice 5 [10]%N world3).1 = 200%N ∧
  ∃ album1,
    db_albums (remove_photos alice 5 [10]%N world3).2 !! 5%N = Some album1 ∧
    Album.photos album1 = [] ∧ Album.coverPhoto album1 = None.
Proof.
  destruct (remove_photos_cover alice 5 [10]%N world3 trip 10)
    as (Hstatus & album1 & Ha & _ & _ & _ & Hsole).
  - reflexivity.
  - reflexivity.
  - reflexivity.
  - compute_done.
  - split; [exact Hstatus|]. exists album1. split; [exact Ha|].
    by apply Hsole.
Defined.

Lemma add_photos_rejects_duplicates_witness :
  add_photos alice 5 [10; 10]%N world3 =
    ({| status := 400;
        body := Message "Some photos not found or not owned by user" |},
     world3).
Proof.
  refine (proj2 (add_photos_rejects_duplicates alice 5 [10; 10]%N world3 trip
                   _ _ _ _)).
  - reflexivity.
  - reflexivity.
  - compute_done.
  - compute_done.
Defined.

(** *** Deletion *)

Lemma delete_by_other_forbidden_witness :
  delete_photo again bob 10 world3 =
    ({| status := 403; body := Message "Not authorized to delete this photo" |},
     world3) ∧
  status (get_photo 10 (delete_photo again bob 10 world3).2) = 200%N.
Proof.
  destruct (delete_by_other_forbidden again bob 10 world3 sunset_photo)
    as (Hdel & _ & _ & _ & Hget).
  - reflexivity.
  - compute_done.
  - split; [exact Hdel|]. apply Hget. by eexists.
Defined.

(** *** The image processor *)

Lemma derivation_formats_witness :
  thumbnail_pipeline default_size 80 "jpeg" =
    [resize 300 300 "cover" "center"; jpeg 80] ∧
  ∃ out, render [resize 300 300 "cover" "center"; jpeg 80] sunset_bytes = Ok out.
Proof.
  edestruct (derivation_formats decode render true sunset_event
               (s3_bucket world1))
    as ((original & out & Ho & Hout & _) & Hjpeg & _ & _).
  - vm_compute. reflexivity.
  - split; [by apply Hjpeg|]. exists out.
    vm_compute in Ho. injection Ho as <-. exact Hout.
Defined.

(** *** The photo record over a request *)

Lemma photo_record_invariants_witness :
  db_photos (serve (Reprocess again alice 10) world3).2 !! 10%N
    = Some sunset_photo ∧
  rtc status_step pending (Photo.processingStatus sunset_photo) ∧
  Photo.uploadedBy sunset_photo = alice.
Proof.
  assert (db_photos (serve (Reprocess again alice 10) world3).2 !! 10%N
            = Some sunset_photo) as Hafter by reflexivity.
  destruct (photo_record_invariants extname_posix false
              (Some "pixelboard-uploads") None decode render first_bytes false
              (Reprocess again alice 10) world3 10%N sunset_photo Hafter)
    as (_ & Hold).
  change (db_photos world3 !! 10%N) with (Some sunset_photo) in Hold.
  destruct Hold as (Hpath & _ & Hu & _). by split.
Defined.

(** *** Further examples *)

Lemma getThumbnailKey_layout_witness :
  getThumbnailKey ("photos" ++ "/" ++ "1700000000000-3f2a.jpg") =
    "photos" ++ "/thumbnails/thumb_" ++ "1700000000000-3f2a.jpg" ∧
  getThumbnailKey "1700000000000-3f2a.jpg" =
    "/thumbnails/thumb_" ++ "1700000000000-3f2a.jpg".
Proof.
  apply (getThumbnailKey_layout "photos" "1700000000000-3f2a.jpg").
  reflexivity.
Defined.

Lemma getThumbnailKey_injective_witness :
  getThumbnailKey sunset_key = sunset_thumbnail ∧ sunset_key = sunset_key.
Proof.
  split; [reflexivity|].
  apply (getThumbnailKey_injective sunset_key sunset_key); reflexivity.
Defined.

Lemma getThumbnailKey_collision_witness :
  "/" ++ "sunset.jpg" ≠ "sunset.jpg" ∧
  getThumbnailKey ("/" ++ "sunset.jpg") = getThumbnailKey "sunset.jpg".
Proof. apply (getThumbnailKey_collision "sunset.jpg"). reflexivity. Defined.

Lemma upload_then_get_witness :
  ∃ v, get_photo 10 (submit thumbnailed alice sunset world0).2 =
         {| status := 200; body := PhotoBody None v |} ∧
       v_title v = text "Sunset" ∧ v_uploadedBy v = Some "alice".
Proof.
  destruct (upload_then_get extname_posix false (Some "pixelboard-uploads") None
              decode render first_bytes false thumbnailed alice sunset world0
              "alice")
    as (v & p & Hget & _ & Htitle & _ & Hname & _).
  - vm_compute. reflexivity.
  - reflexivity.
  - exists v. split; [exact Hget|]. split; [exact Htitle|exact Hname].
Defined.

Lemma delete_by_owner_witness :
  get_photo 10 (delete_photo again alice 10 world3).2 =
    {| status := 404; body := Message "Photo not found" |} ∧
  db_albums (delete_photo again alice 10 world3).2 = db_albums world3.
Proof.
  destruct (delete_by_owner again alice 10 world3 sunset_photo)
    as (_ & _ & Hget & Halbums & _).
  - vm_compute. reflexivity.
  - reflexivity.
  - split; [exact Hget|exact Halbums].
Defined.

Lemma delete_photo_blobs_witness :
  s3_bucket (delete_photo again alice 10 world3).2 !! sunset_key = None ∧
  s3_bucket (delete_photo again alice 10 world3).2 !! sunset_thumbnail =
    s3_bucket world3 !! sunset_thumbnail.
Proof.
  destruct (delete_photo_blobs again alice 10 world3 sunset_photo)
    as (_ & _ & Hgone & Hothers).
  - vm_compute. reflexivity.
  - reflexivity.
  - reflexivity.
  - destruct (Hgone eq_refl) as [Horiginal _].
    split; [exact Horiginal|].
    apply (Hothers sunset_thumbnail); discriminate.
Defined.

Lemma upload_then_delete_witness :
  db_photos
    (delete_photo again alice 10 (submit thumbnailed alice sunset world0).2).2
  = db_photos world0.
Proof.
  destruct (upload_then_delete extname_posix false (Some "pixelboard-uploads")
              None decode render first_bytes false thumbnailed again alice
              sunset world0)
    as (_ & Hphotos & _).
  - vm_compute. reflexivity.
  - exact Hphotos.
Defined.

Lemma album_routes_empty_list_witness :
  add_photos alice 6 [] world5 =
    ({| status := 200; body := Message "Photos added to album successfully" |},
     world5) ∧
  remove_photos alice 6 [] world5 =
    ({| status := 200;
        body := Message "Photos removed from album successfully" |}, world5).
Proof.
  apply (album_routes_empty_list alice 6 world5 later).
  - vm_compute. reflexivity.
  - reflexivity.
Defined.

Lemma add_then_remove_witness :
  remove_photos alice 6 [10; 30]%N (add_photos alice 6 [10; 30]%N world5).2 =
    ({| status := 200;
        body := Message "Photos removed from album successfully" |}, world5).
Proof.
  refine (proj2 (add_then_remove alice 6 [10; 30]%N world5 later
                   _ _ _ _ _ _ _)).
  - vm_compute. reflexivity.
  - reflexivity.
  - reflexivity.
  - apply back_references_checked. vm_compute. reflexivity.
  - compute_done.
  - compute_done.
  - intros i _. apply not_elem_of_nil.
Defined.

Lemma run_back_references_witness :
  back_references (serve (AddPhotos alice 6 [10; 30]%N) world5).2.
Proof.
  apply (run_back_references extname_posix false (Some "pixelboard-uploads")
           None decode render first_bytes false (AddPhotos alice 6 [10; 30]%N)
           world5).
  apply back_references_checked. vm_compute. reflexivity.
Defined.

Lemma run_cover_in_album_witness :
  cover_in_album (serve (RemovePhotos alice 5 [10]%N) world5).2.
Proof.
  apply (run_cover_in_album extname_posix false (Some "pixelboard-uploads")
           None decode render first_bytes false (RemovePhotos alice 5 [10]%N)
           world5).
  apply cover_in_album_checked. vm_compute. reflexivity.
Defined.

Lemma run_albums_nodup_witness :
  albums_nodup (serve (AddPhotos alice 5 [10; 30]%N) world5).2.
Proof.
  apply (run_albums_nodup extname_posix false (Some "pixelboard-uploads")
           None decode render first_bytes false (AddPhotos alice 5 [10; 30]%N)
           world5).
  apply albums_nodup_checked. vm_compute. reflexivity.
Defined.

Lemma delete_album_by_creator_witness :
  db_albums (delete_album alice 5 world3).2 = delete 5%N (db_albums world3) ∧
  ∀ i p', db_photos (delete_album alice 5 world3).2 !! i = Some p' →
          5%N ∉ Photo.albums p'.
Proof.
  destruct (delete_album_by_creator alice 5 world3 trip)
    as (_ & Halbums & _ & _ & Hphotos).
  - vm_compute. reflexivity.
  - reflexivity.
  - split; [exact Halbums|]. apply Hphotos.
    apply back_references_checked. vm_compute. reflexivity.
Defined.

Lemma my_photos_listing_witness :
  list_status (my_photos alice world5) = 200%N ∧
  NoDup (v_id <$> listed (my_photos alice world5)).
Proof.
  destruct (my_photos_listing alice world5 "alice") as (Hstatus & _ & Hnd & _).
  - reflexivity.
  - split; [exact Hstatus|exact Hnd].
Defined.

(** The local-disk route on a sound image: the thumbnail is generated,
    [save] refuses the document, the original is unlinked and the
    thumbnail stays. *)
Lemma local_upload_saves_nothing_witness :
  local_post_upload extname_posix render false local_env alice sunset
    local_world =
    ({| status := 500; body := Message "Server error" |},
     {| local_photos := ∅;
        disk := {[ "uploads/thumbnails/thumb_1700000000000-42.jpg"
                   := sunset_bytes ]} |}).
Proof.
  destruct (local_upload_saves_nothing extname_posix render false local_env
              alice sunset local_world)
    as (_ & _ & Hsaved).
  destruct (Hsaved "1700000000000-42.jpg" (image "sunset.jpg" sunset_bytes)
              {[ "uploads/1700000000000-42.jpg" := sunset_bytes ]} sunset_bytes)
    as (Hres & _).
  - reflexivity.
  - vm_compute. reflexivity.
  - reflexivity.
  - etransitivity; [exact Hres|]. vm_compute. reflexivity.
Defined.

Lemma local_upload_rejected_title_keeps_file_witness :
  local_post_upload extname_posix render false local_env alice untitled
    local_world =
    ({| status := 400; body := Errors |},
     {| local_photos := local_photos local_world;
        disk := <["uploads/" ++ local_filename extname_posix local_env
                                  (originalname (image "sunset.jpg" sunset_bytes))
                  := content (image "sunset.jpg" sunset_bytes)]>
                  (disk local_world) |}).
Proof.
  apply (local_upload_rejected_title_keeps_file extname_posix render false
           local_env alice untitled local_world
           (image "sunset.jpg" sunset_bytes)).
  - reflexivity.
  - reflexivity.
  - vm_compute. discriminate.
  - reflexivity.
Defined.
